(** * NUClear: DSL fusion, the Network word and the dispatch core

    A shallow embedding of the NUClear headers
      - nuclear_bits/util/get_identifier.h
      - nuclear_bits/dsl/word/Network.hpp
      - nuclear_bits/dsl/fusion/BindFusion.h
    together with a model of the dispatch core that NUClear/Reactor.h
    declares (DataStore, Registry, EmitPipeline, TaskQueue, SyncScheduler,
    WorkerPool), whose bodies are in the [.ipp]/[.cpp] files that accompany
    these headers.

    Part I holds the definitions, Part II the theorems. *)

From stdpp Require Import gmap strings list fin_maps sorting.
From Stdlib Require Import ZArith.
From Stdlib.Strings Require Import Byte.


(* ===================================================================== *)
(** * Part I: definitions                                                 *)
(* ===================================================================== *)

(** ** C++ types as first-class values

    [typeid], trait specialisation and the per-type stores of the runtime are
    all keyed by a C++ type.  The constructors are the types the embedded
    headers mention; [Named] stands for an arbitrary user message type. *)

Inductive CppType : Type :=
| Named (name : string)
| NetworkDataT (T : CppType)
| NetworkSourceT
| NetworkListenT
| SharedPtrT (T : CppType)
| EveryT (ticks : nat) (period : string).

#[global] Instance CppType_eq_dec : EqDecision CppType.
Proof. solve_decision. Defined.

Fixpoint CppType_to_tree (t : CppType) : gen_tree (string + nat) :=
  match t with
  | Named s => GenNode 0 [GenLeaf (inl s)]
  | NetworkDataT T => GenNode 1 [CppType_to_tree T]
  | NetworkSourceT => GenNode 2 []
  | NetworkListenT => GenNode 3 []
  | SharedPtrT T => GenNode 4 [CppType_to_tree T]
  | EveryT n p => GenNode 5 [GenLeaf (inr n); GenLeaf (inl p)]
  end.

Fixpoint CppType_of_tree (t : gen_tree (string + nat)) : CppType :=
  match t with
  | GenNode 0 [GenLeaf (inl s)] => Named s
  | GenNode 1 [T] => NetworkDataT (CppType_of_tree T)
  | GenNode 3 [] => NetworkListenT
  | GenNode 4 [T] => SharedPtrT (CppType_of_tree T)
  | GenNode 5 [GenLeaf (inr n); GenLeaf (inl p)] => EveryT n p
  | _ => NetworkSourceT
  end.

#[global] Instance CppType_countable : Countable CppType.
Proof.
  refine (inj_countable' CppType_to_tree CppType_of_tree _).
  induction x as [s|T IH| | |T IH|n p]; simpl; try rewrite IH; reflexivity.
Defined.

(** The runtime's TypeKey is the identity of an event type. *)
Abbreviation TypeKey := CppType.

(** ** nuclear_bits/util/get_identifier.h *)

Module util.
Section GetIdentifier.

(** [typeid(T).name()] and [demangle] (nuclear_bits/util/demangle.h) are not
    part of the embedded sources; they are taken as parameters. *)
Variable typeid_name : CppType -> string.
Variable demangle : string -> string.

(** [std::vector::push_back] *)
Definition push_back {A : Type} (v : list A) (x : A) : list A := v ++ [x].

Definition get_identifier (TFusion TFunc : CppType) (usr : string) : list string :=
  let out := @nil string in
  let out := push_back out usr in
  let out := push_back out (demangle (typeid_name TFusion)) in
  let out := push_back out (demangle (typeid_name TFunc)) in
  out.

End GetIdentifier.
End util.

(** ** nuclear_bits/dsl/fusion/BindFusion.h *)

Module BindFusion.
Section Fusion.

(** The reactor a hook acts on, the callback, the run-time arguments and the
    handles are opaque to the fusion. *)
Context {Reactor Callback Arg Handle : Type}.

(** A [bind] hook: [static bind<DSL>(Reactor&, const std::string&, TFunc,
    TRelevant...)].  [hook_arity] is the number of [TRelevant] parameters of
    its signature; [hook_run] is its body, which may mutate the reactor and
    returns a vector of handles. *)
Record Hook : Type := {
  hook_arity : nat;
  hook_run : Reactor -> string -> Callback -> list Arg -> Reactor * list Handle
}.

(** A DSL word: it may define [bind] itself, and its [operation::DSLProxy]
    specialisation may define one. *)
Record Word : Type := {
  word_name : string;
  own_bind : option Hook;
  proxy_bind : option Hook
}.

(** [Any<has_bind<U>, has_bind<operation::DSLProxy<U>>>] *)
Definition has_any_bind (w : Word) : bool :=
  bool_decide (is_Some (own_bind w)) || bool_decide (is_Some (proxy_bind w)).

(** [If<has_bind<TFirst>, TFirst, operation::DSLProxy<TFirst>>::bind] *)
Definition selected_bind (w : Word) : option Hook :=
  match own_bind w with
  | Some h => Some h
  | None => proxy_bind w
  end.

(** [Any<Any<has_bind<TWords>, has_bind<operation::DSLProxy<TWords>>>...>] *)
Definition children_bind (words : list Word) : bool :=
  existsb has_any_bind words.

(** [BindFission<BindFunc, TFirst, TWords...>::bind]: the first
    [hook_arity] run-time arguments are the [TRelevant] of the first word's
    hook, the others the [TRemainder] handed to [BindFusion<TWords...>];
    the new handles are appended to [init].  [None] stands for arguments the
    signatures do not fit, which the compiler rejects.  Only the number of
    arguments is modelled: their value categories ([TRelevant&&] is an
    rvalue reference to the hook's own parameter type, so that an lvalue is
    refused there) and the state of the callback after it has been forwarded
    to the first hook (it is forwarded again to the rest of the fusion) are
    not. *)
Definition BindFission_bind (TFirst_bind : Hook)
    (BindFusion_TWords_bind :
       Reactor -> string -> Callback -> list Arg -> option (Reactor * list Handle))
    (reactor : Reactor) (identifier : string) (callback : Callback)
    (args : list Arg) : option (Reactor * list Handle) :=
  if decide (hook_arity TFirst_bind <= length args)%nat then
    let relevant := take (hook_arity TFirst_bind) args in
    let remainder := drop (hook_arity TFirst_bind) args in
    (* Call our bind function with the relevant arguments *)
    let '(reactor1, init) := hook_run TFirst_bind reactor identifier callback relevant in
    (* Call the remainder of our fusion *)
    match BindFusion_TWords_bind reactor1 identifier callback remainder with
    | Some (reactor2, newHandles) => Some (reactor2, init ++ newHandles)
    | None => None
    end
  else None.

(** [BindFusion<TFirst, TWords...>::bind], its three overloads selected by
    the [EnableIf] conditions.  [None] stands for an instantiation the
    compiler rejects: no overload is enabled (neither the first word nor a
    later one has a hook, or the word list is empty), or the run-time
    arguments do not fit the hooks' signatures. *)
Fixpoint bind (words : list Word) (reactor : Reactor) (identifier : string)
    (callback : Callback) (args : list Arg) : option (Reactor * list Handle) :=
  match words with
  | [] => None
  | TFirst :: TWords =>
    match has_any_bind TFirst, children_bind TWords, selected_bind TFirst with
    | true, true, Some BindFunc =>
      (* us and our children *)
      BindFission_bind BindFunc (bind TWords) reactor identifier callback args
    | true, false, Some BindFunc =>
      (* us but not our children *)
      if decide (hook_arity BindFunc = length args) then
        Some (hook_run BindFunc reactor identifier callback args)
      else None
    | false, true, _ =>
      (* not us but our children *)
      bind TWords reactor identifier callback args
    | _, _, _ => None
    end
  end.

(** The fusion as the specification reads it, stated on the hooks alone: run
    each hook once, left to right, each on its own slice of the arguments,
    and concatenate what they return. *)
Fixpoint run_hooks_in_order (hooks : list Hook) (reactor : Reactor)
    (identifier : string) (callback : Callback) (args : list Arg)
    : Reactor * list Handle :=
  match hooks with
  | [] => (reactor, [])
  | h :: rest =>
    let '(reactor1, handles) :=
      hook_run h reactor identifier callback (take (hook_arity h) args) in
    let '(reactor2, more) :=
      run_hooks_in_order rest reactor1 identifier callback (drop (hook_arity h) args) in
    (reactor2, handles ++ more)
  end.

(** The hooks of the words that have one, in word order. *)
Definition hooks_of (words : list Word) : list Hook :=
  omap selected_bind words.

Definition total_arity (words : list Word) : nat :=
  sum_list (hook_arity <$> hooks_of words).

End Fusion.

Arguments Hook : clear implicits.
Arguments Word : clear implicits.

(** A reactor that records which hooks ran on it: every hook is wrapped so
    that it appends its word's name to a call log when it runs. *)
Section Logged.
Context {Reactor Callback Arg Handle : Type}.

Definition log_hook (name : string) (h : Hook Reactor Callback Arg Handle)
    : Hook (Reactor * list string) Callback Arg Handle :=
  {| hook_arity := hook_arity h;
     hook_run := fun r identifier callback args =>
       let '(r', hs) := hook_run h (fst r) identifier callback args in
       ((r', snd r ++ [name]), hs) |}.

Definition log_word (w : Word Reactor Callback Arg Handle)
    : Word (Reactor * list string) Callback Arg Handle :=
  {| word_name := word_name w;
     own_bind := log_hook (word_name w) <$> own_bind w;
     proxy_bind := log_hook (word_name w) <$> proxy_bind w |}.

End Logged.
End BindFusion.

(** ** nuclear_bits/dsl/trait/is_transient.hpp, as specialised by Network.hpp *)

Module trait.

(** The primary template lives in is_transient.hpp, which is not among the
    embedded sources: [primary] is what it (and any specialisation made
    elsewhere) answers.  Network.hpp adds two specialisations, which take
    precedence for the types they match:
      [is_transient<word::NetworkData<T>>] and
      [is_transient<std::shared_ptr<word::NetworkSource>>]. *)
Definition is_transient (primary : CppType -> bool) (t : CppType) : bool :=
  match t with
  | NetworkDataT _ => true
  | SharedPtrT NetworkSourceT => true
  | _ => primary t
  end.

End trait.

(** ** The dispatch core

    Reactor.h only declares the engine; its bodies are in Reactor.ipp,
    ReactorController and the Internal/ headers, none of which is among the
    embedded sources.  Everything in this module is therefore modelled from
    the specification (sections 3 to 5).  The runtime is a transition system
    over the shared state and a pool of threads; a transition is one step of
    one thread, where a step is one of the steps that the specification
    enumerates and touches the shared objects once, so that every
    interleaving of the threads that section 5 allows is a run.  Wall-clock
    time (when a timer fires, how long a callback runs) is left open, and
    shutdown is not modelled. *)

Module Engine.

(** Modelled from the spec: the five priority levels of [enum EPriority]
    (Internal/Options.h is missing). *)
Inductive EPriority : Type := REALTIME | HIGH | NORMAL | LOW | LOWEST.

#[global] Instance EPriority_eq_dec : EqDecision EPriority.
Proof. solve_decision. Defined.

(** Modelled from the spec: the bucket index of a priority level (the
    TaskQueue is missing); [REALTIME] is served first. *)
Definition priority_rank (p : EPriority) : nat :=
  match p with
  | REALTIME => 0 | HIGH => 1 | NORMAL => 2 | LOW => 3 | LOWEST => 4
  end.

Definition levels : list EPriority := [REALTIME; HIGH; NORMAL; LOW; LOWEST].

(** Modelled from the spec: [Internal::ReactionOptions], the fields
    [{ priority, sync_group : optional TypeKey, single : bool }]. *)
Record ReactionOptions : Type := {
  priority : EPriority;
  sync_group : option TypeKey;
  single : bool
}.

(** Modelled from the spec: the emit scopes of section 6. *)
Inductive Scope : Type := LOCAL | DIRECT | INITIALIZE | NETWORK | UDP | TCP.

#[global] Instance Scope_eq_dec : EqDecision Scope.
Proof. solve_decision. Defined.

(** User callbacks are opaque to the runtime, which never looks inside
    one: a callback is known by a token. *)
Definition Callback : Type := nat.

(** Modelled from the spec: the Reaction descriptor, immutable after
    creation.  The invoker is the user callback; [owner] names the creating
    reactor; the argument gatherer is [gather] below.  The mutable [active]
    counter and the handle's enabled flag are kept in the engine state, keyed
    by [reaction_id]. *)
Record Reaction : Type := {
  reaction_id : nat;
  owner : nat;
  triggers : list TypeKey;
  withs : list TypeKey;
  invoker : Callback;
  options : ReactionOptions;
  identifier : list string
}.

Section Core.

(** Event payloads are opaque to the core. *)
Context {Payload : Type}.

(** Which With types are transient: the [is_transient] trait. *)
Variable transient : TypeKey -> bool.

(** The specification gives two readings of step 1 of [emit] for the LOCAL
    scope: section 4.3 step 1 skips the DataStore write "if the emit scope is
    Local only", while the list of scopes below it and section 8 have LOCAL
    write like any other emit.  The reading is a parameter: [true] skips the
    write. *)
Variable local_skips_store : bool.

(** Modelled from the spec: [Task = { reaction, frozen arg bundle,
    submit_seq }]. *)
Record Task : Type := {
  reaction : Reaction;
  args : list (option Payload);
  submit_seq : nat
}.

Definition task_priority (t : Task) : EPriority := priority (options (reaction t)).
Definition task_group (t : Task) : option TypeKey := sync_group (options (reaction t)).
Definition task_id (t : Task) : nat := reaction_id (reaction t).

(** *** DataStore (section 4.1) *)

(** Modelled from the spec: a DataStore entry (the DataStore is missing), one
    slot per TypeKey holding the most recent payload pointer (possibly null)
    and a monotonically increasing sequence number. *)
Record Slot : Type := {
  payload : option Payload;
  seq : nat
}.

Definition slot_seq (store : gmap TypeKey Slot) (K : TypeKey) : nat :=
  match store !! K with
  | Some s => seq s
  | None => 0
  end.

(** Modelled from the spec: [put(K, payload) -> seq] of the missing
    DataStore; it replaces the slot and returns the new sequence number. *)
Definition put (K : TypeKey) (p : option Payload) (store : gmap TypeKey Slot)
    : gmap TypeKey Slot * nat :=
  let s := S (slot_seq store K) in
  (<[K := {| payload := p; seq := s |}]> store, s).

(** Modelled from the spec: [get(K) -> (payload, seq)] of the missing
    DataStore; a snapshot, with a null payload if K was never written. *)
Definition get (K : TypeKey) (store : gmap TypeKey Slot) : option Payload * nat :=
  match store !! K with
  | Some s => (payload s, seq s)
  | None => (None, 0%nat)
  end.

(** *** TaskQueue (section 4.4) *)

(** Modelled from the spec: the missing TaskQueue, a priority queue keyed on
    (priority bucket, submit_seq); five buckets, one per priority level, each
    ordered by submit_seq. *)
Record TaskQueue : Type := {
  realtime_q : list Task;
  high_q : list Task;
  normal_q : list Task;
  low_q : list Task;
  lowest_q : list Task
}.

Definition empty_queue : TaskQueue :=
  {| realtime_q := []; high_q := []; normal_q := []; low_q := []; lowest_q := [] |}.

Definition bucket (p : EPriority) (q : TaskQueue) : list Task :=
  match p with
  | REALTIME => realtime_q q
  | HIGH => high_q q
  | NORMAL => normal_q q
  | LOW => low_q q
  | LOWEST => lowest_q q
  end.

Definition with_bucket (p : EPriority) (l : list Task) (q : TaskQueue) : TaskQueue :=
  match p with
  | REALTIME =>
    {| realtime_q := l; high_q := high_q q; normal_q := normal_q q;
       low_q := low_q q; lowest_q := lowest_q q |}
  | HIGH =>
    {| realtime_q := realtime_q q; high_q := l; normal_q := normal_q q;
       low_q := low_q q; lowest_q := lowest_q q |}
  | NORMAL =>
    {| realtime_q := realtime_q q; high_q := high_q q; normal_q := l;
       low_q := low_q q; lowest_q := lowest_q q |}
  | LOW =>
    {| realtime_q := realtime_q q; high_q := high_q q; normal_q := normal_q q;
       low_q := l; lowest_q := lowest_q q |}
  | LOWEST =>
    {| realtime_q := realtime_q q; high_q := high_q q; normal_q := normal_q q;
       low_q := low_q q; lowest_q := l |}
  end.

(** Modelled from the spec: insertion into a bucket of the missing TaskQueue,
    by submit_seq: after every task whose submit_seq is not larger. *)
Fixpoint insert_by_seq (t : Task) (l : list Task) : list Task :=
  match l with
  | [] => [t]
  | u :: l' =>
    if decide (submit_seq u <= submit_seq t)%nat
    then u :: insert_by_seq t l'
    else t :: u :: l'
  end.

(** Modelled from the spec: submission to the missing TaskQueue, into the
    bucket of the task's priority. *)
Definition push (t : Task) (q : TaskQueue) : TaskQueue :=
  with_bucket (task_priority t) (insert_by_seq t (bucket (task_priority t) q)) q.

(** Modelled from the spec: the pop of the missing TaskQueue over the buckets
    [ps], the head of the first one that is not empty. *)
Fixpoint pop_from (ps : list EPriority) (q : TaskQueue) : option (Task * TaskQueue) :=
  match ps with
  | [] => None
  | p :: ps' =>
    match bucket p q with
    | t :: rest => Some (t, with_bucket p rest q)
    | [] => pop_from ps' q
    end
  end.

(** Modelled from the spec: the pop of the missing TaskQueue; [None] when
    the queue is empty (the worker waits). *)
Definition pop (q : TaskQueue) : option (Task * TaskQueue) := pop_from levels q.

Definition queue_tasks (q : TaskQueue) : list Task :=
  realtime_q q ++ high_q q ++ normal_q q ++ low_q q ++ lowest_q q.

(** Pop until the queue is empty ([fuel] bounds the number of pops). *)
Fixpoint drain (fuel : nat) (q : TaskQueue) : list Task :=
  match fuel with
  | O => []
  | S fuel' =>
    match pop q with
    | Some (t, q') => t :: drain fuel' q'
    | None => []
    end
  end.

Definition drain_all (q : TaskQueue) : list Task := drain (length (queue_tasks q)) q.

(** Queue histories: any interleaving of submissions and pops. *)
Inductive QueueOp : Type :=
| QPush (t : Task)
| QPop.

Definition queue_op (q : TaskQueue) (op : QueueOp) : TaskQueue :=
  match op with
  | QPush t => push t q
  | QPop => match pop q with Some (_, q') => q' | None => q end
  end.

Definition queue_after (ops : list QueueOp) : TaskQueue := foldl queue_op empty_queue ops.

(** The order of section 4.3: higher priority first, then smaller
    submit_seq. *)
Definition pops_before (t u : Task) : Prop :=
  (priority_rank (task_priority t) < priority_rank (task_priority u))%nat ∨
  (task_priority t = task_priority u ∧ (submit_seq t <= submit_seq u)%nat).

Definition seq_le (t u : Task) : Prop := (submit_seq t <= submit_seq u)%nat.

(** Well-formed queue: bucket p holds tasks of priority p, ordered by
    submit_seq. *)
Definition queue_wf (q : TaskQueue) : Prop :=
  forall p, Forall (fun t => task_priority t = p) (bucket p q)
            /\ StronglySorted seq_le (bucket p q).

(** *** SyncScheduler state (section 4.5) *)

(** Modelled from the spec: the state of one Sync group of the missing
    SyncScheduler, [{ running : bool, pending : FIFO<Task> }].  The spec has
    a parked task "resumed when the current holder completes" and does not
    say how the worker that dequeues the resubmitted task knows it: [heir]
    holds the submit_seq of the task that the release protocol resubmitted
    last, until that task starts. *)
Record SyncGroup : Type := {
  running : bool;
  pending : list Task;
  heir : option nat
}.

Definition idle_group : SyncGroup := {| running := false; pending := []; heir := None |}.

(** *** Threads (section 5) *)

(** Modelled from the spec: the parallel OS threads of section 5, whose code
    is missing.  A worker of the pool drains the TaskQueue; an emitter is a
    thread that called [emit] in LOCAL scope (or the timer thread firing an
    Every, or the thread replaying the INITIALIZE buffer); a direct emitter
    called it in DIRECT scope and runs the callbacks itself. *)
Inductive Mode : Type := WorkerThread | LocalEmitter | DirectEmitter.

(** Modelled from the spec: where a thread stands between two of the steps
    that sections 4.3, 4.5 and 4.6 enumerate; the code is missing.  Nothing
    is taken to be atomic across two steps: every constructor is a point at
    which the other threads may run. *)
Inductive PC : Type :=
| Ready                                   (* between candidates, or between tasks *)
| Lookup (K : TypeKey)                    (* 4.3 step 1 done *)
| Live (R : Reaction)                     (* 4.3 step 3: R is enabled, its owner live *)
| Gathering (R : Reaction) (Ws : list TypeKey) (bundle : list (option Payload))
    (* 4.3 step 3a passed; step 3b: the With keys still to read, the bundle so far *)
| Built (t : Task)                        (* 4.3 step 3c: task built *)
| Counted (t : Task)                      (* 4.3 step 3c: active incremented *)
| Popped (t : Task)                       (* 4.6 step 1 done *)
| Checked (t : Task)                      (* 4.6 step 3 passed *)
| Orphan (t : Task)                       (* 4.6 step 3 failed, active not yet decremented *)
| Running (t : Task)                      (* 4.6 step 5: the callback is executing *)
| Decremented (t : Task).                 (* 4.6 step 6: active decremented, group not yet released *)

(** Modelled from the spec: the private state of a thread (missing code): the
    emits it still has to make, the payload of the emit it is in, the
    candidates of that emit it has not dispatched yet (the snapshot of step
    2), and where it stands. *)
Record Thread : Type := {
  mode : Mode;
  emits : list (TypeKey * option Payload);
  cur : option Payload;
  todo : list Reaction;
  pc : PC
}.

Definition at_pc (p : PC) (th : Thread) : Thread :=
  {| mode := mode th; emits := emits th; cur := cur th; todo := todo th; pc := p |}.

(** *** The runtime state *)

(** Modelled from the spec: the process-wide state of one runtime (section 9,
    Global state), whose components are all missing from the sources, and
    the threads that act on it. *)
Record State : Type := {
  store : gmap TypeKey Slot;  (* the DataStore *)
  reactions : gmap nat Reaction;  (* OptionsTable: every created reaction, by id *)
  active : gmap nat Z;  (* OptionsTable: the atomic [active] counters, by id (absent = 0) *)
  triggered_by : gmap TypeKey (list Reaction);  (* Registry *)
  timers : list Reaction;  (* EveryScheduler's timer entries *)
  disabled : gset nat;  (* handles whose enabled flag is off *)
  dead_owners : gset nat;  (* reactors that were destroyed *)
  cache : gmap (nat * TypeKey) Payload;  (* last transient value seen, per (reaction, TypeKey) *)
  queue : TaskQueue;  (* the TaskQueue *)
  syncs : gmap TypeKey SyncGroup;  (* SyncScheduler: one entry per group *)
  threads : list Thread;  (* the threads: workers and emitters *)
  next_id : nat;  (* next reaction id *)
  next_seq : nat;  (* next submit_seq *)
  started : bool;  (* runtime lifecycle: has Running been entered *)
  buffered : list (TypeKey * option Payload);  (* INITIALIZE emits waiting for Running *)
  outbox : list (Scope * TypeKey * option Payload)  (* emits handed to the network collaborator *)
}.

(** Field updates of [State]. *)
Definition with_store (v : gmap TypeKey Slot) (σ : State) : State :=
  {| store := v; reactions := reactions σ; active := active σ; triggered_by :=
     triggered_by σ; timers := timers σ; disabled := disabled σ; dead_owners :=
     dead_owners σ; cache := cache σ; queue := queue σ; syncs := syncs σ; threads :=
     threads σ; next_id := next_id σ; next_seq := next_seq σ; started := started σ;
     buffered := buffered σ; outbox := outbox σ |}.

Definition with_reactions (v : gmap nat Reaction) (σ : State) : State :=
  {| store := store σ; reactions := v; active := active σ; triggered_by := triggered_by
     σ; timers := timers σ; disabled := disabled σ; dead_owners := dead_owners σ; cache
     := cache σ; queue := queue σ; syncs := syncs σ; threads := threads σ; next_id :=
     next_id σ; next_seq := next_seq σ; started := started σ; buffered := buffered σ;
     outbox := outbox σ |}.

Definition with_active (v : gmap nat Z) (σ : State) : State :=
  {| store := store σ; reactions := reactions σ; active := v; triggered_by :=
     triggered_by σ; timers := timers σ; disabled := disabled σ; dead_owners :=
     dead_owners σ; cache := cache σ; queue := queue σ; syncs := syncs σ; threads :=
     threads σ; next_id := next_id σ; next_seq := next_seq σ; started := started σ;
     buffered := buffered σ; outbox := outbox σ |}.

Definition with_triggered_by (v : gmap TypeKey (list Reaction)) (σ : State) : State :=
  {| store := store σ; reactions := reactions σ; active := active σ; triggered_by := v;
     timers := timers σ; disabled := disabled σ; dead_owners := dead_owners σ; cache :=
     cache σ; queue := queue σ; syncs := syncs σ; threads := threads σ; next_id :=
     next_id σ; next_seq := next_seq σ; started := started σ; buffered := buffered σ;
     outbox := outbox σ |}.

Definition with_timers (v : list Reaction) (σ : State) : State :=
  {| store := store σ; reactions := reactions σ; active := active σ; triggered_by :=
     triggered_by σ; timers := v; disabled := disabled σ; dead_owners := dead_owners σ;
     cache := cache σ; queue := queue σ; syncs := syncs σ; threads := threads σ; next_id
     := next_id σ; next_seq := next_seq σ; started := started σ; buffered := buffered σ;
     outbox := outbox σ |}.

Definition with_disabled (v : gset nat) (σ : State) : State :=
  {| store := store σ; reactions := reactions σ; active := active σ; triggered_by :=
     triggered_by σ; timers := timers σ; disabled := v; dead_owners := dead_owners σ;
     cache := cache σ; queue := queue σ; syncs := syncs σ; threads := threads σ; next_id
     := next_id σ; next_seq := next_seq σ; started := started σ; buffered := buffered σ;
     outbox := outbox σ |}.

Definition with_dead_owners (v : gset nat) (σ : State) : State :=
  {| store := store σ; reactions := reactions σ; active := active σ; triggered_by :=
     triggered_by σ; timers := timers σ; disabled := disabled σ; dead_owners := v; cache
     := cache σ; queue := queue σ; syncs := syncs σ; threads := threads σ; next_id :=
     next_id σ; next_seq := next_seq σ; started := started σ; buffered := buffered σ;
     outbox := outbox σ |}.

Definition with_cache (v : gmap (nat * TypeKey) Payload) (σ : State) : State :=
  {| store := store σ; reactions := reactions σ; active := active σ; triggered_by :=
     triggered_by σ; timers := timers σ; disabled := disabled σ; dead_owners :=
     dead_owners σ; cache := v; queue := queue σ; syncs := syncs σ; threads := threads
     σ; next_id := next_id σ; next_seq := next_seq σ; started := started σ; buffered :=
     buffered σ; outbox := outbox σ |}.

Definition with_queue (v : TaskQueue) (σ : State) : State :=
  {| store := store σ; reactions := reactions σ; active := active σ; triggered_by :=
     triggered_by σ; timers := timers σ; disabled := disabled σ; dead_owners :=
     dead_owners σ; cache := cache σ; queue := v; syncs := syncs σ; threads := threads
     σ; next_id := next_id σ; next_seq := next_seq σ; started := started σ; buffered :=
     buffered σ; outbox := outbox σ |}.

Definition with_syncs (v : gmap TypeKey SyncGroup) (σ : State) : State :=
  {| store := store σ; reactions := reactions σ; active := active σ; triggered_by :=
     triggered_by σ; timers := timers σ; disabled := disabled σ; dead_owners :=
     dead_owners σ; cache := cache σ; queue := queue σ; syncs := v; threads := threads
     σ; next_id := next_id σ; next_seq := next_seq σ; started := started σ; buffered :=
     buffered σ; outbox := outbox σ |}.

Definition with_threads (v : list Thread) (σ : State) : State :=
  {| store := store σ; reactions := reactions σ; active := active σ; triggered_by :=
     triggered_by σ; timers := timers σ; disabled := disabled σ; dead_owners :=
     dead_owners σ; cache := cache σ; queue := queue σ; syncs := syncs σ; threads := v;
     next_id := next_id σ; next_seq := next_seq σ; started := started σ; buffered :=
     buffered σ; outbox := outbox σ |}.

Definition with_next_id (v : nat) (σ : State) : State :=
  {| store := store σ; reactions := reactions σ; active := active σ; triggered_by :=
     triggered_by σ; timers := timers σ; disabled := disabled σ; dead_owners :=
     dead_owners σ; cache := cache σ; queue := queue σ; syncs := syncs σ; threads :=
     threads σ; next_id := v; next_seq := next_seq σ; started := started σ; buffered :=
     buffered σ; outbox := outbox σ |}.

Definition with_next_seq (v : nat) (σ : State) : State :=
  {| store := store σ; reactions := reactions σ; active := active σ; triggered_by :=
     triggered_by σ; timers := timers σ; disabled := disabled σ; dead_owners :=
     dead_owners σ; cache := cache σ; queue := queue σ; syncs := syncs σ; threads :=
     threads σ; next_id := next_id σ; next_seq := v; started := started σ; buffered :=
     buffered σ; outbox := outbox σ |}.

Definition with_started (v : bool) (σ : State) : State :=
  {| store := store σ; reactions := reactions σ; active := active σ; triggered_by :=
     triggered_by σ; timers := timers σ; disabled := disabled σ; dead_owners :=
     dead_owners σ; cache := cache σ; queue := queue σ; syncs := syncs σ; threads :=
     threads σ; next_id := next_id σ; next_seq := next_seq σ; started := v; buffered :=
     buffered σ; outbox := outbox σ |}.

Definition with_buffered (v : list (TypeKey * option Payload)) (σ : State) : State :=
  {| store := store σ; reactions := reactions σ; active := active σ; triggered_by :=
     triggered_by σ; timers := timers σ; disabled := disabled σ; dead_owners :=
     dead_owners σ; cache := cache σ; queue := queue σ; syncs := syncs σ; threads :=
     threads σ; next_id := next_id σ; next_seq := next_seq σ; started := started σ;
     buffered := v; outbox := outbox σ |}.

Definition with_outbox (v : list (Scope * TypeKey * option Payload)) (σ : State) : State :=
  {| store := store σ; reactions := reactions σ; active := active σ; triggered_by :=
     triggered_by σ; timers := timers σ; disabled := disabled σ; dead_owners :=
     dead_owners σ; cache := cache σ; queue := queue σ; syncs := syncs σ; threads :=
     threads σ; next_id := next_id σ; next_seq := next_seq σ; started := started σ;
     buffered := buffered σ; outbox := v |}.

(** Modelled from the spec: the runtime as constructed, everything empty, no
    thread started. *)
Definition init : State :=
  {| store := ∅; reactions := ∅; active := ∅; triggered_by := ∅; timers := [];
     disabled := ∅; dead_owners := ∅; cache := ∅; queue := empty_queue; syncs := ∅;
     threads := []; next_id := 0; next_seq := 0; started := false; buffered := [];
     outbox := [] |}.

(** *** Reaction creation and the Registry (sections 3 and 4.2) *)

(** Modelled from the spec: what a binding supplies for a new Reaction
    (section 3; Internal/Reaction.h is missing). *)
Record Binding : Type := {
  b_owner : nat;
  b_triggers : list TypeKey;
  b_withs : list TypeKey;
  b_invoker : Callback;
  b_options : ReactionOptions;
  b_identifier : list string
}.

(** Modelled from the spec: the creation of a Reaction (Internal/Reaction.h
    is missing).  A new Reaction takes the next id; its OptionsTable entry is
    created with it. *)
Definition create_reaction (b : Binding) (σ : State) : Reaction * State :=
  let R := {| reaction_id := next_id σ; owner := b_owner b; triggers := b_triggers b;
              withs := b_withs b; invoker := b_invoker b; options := b_options b;
              identifier := b_identifier b |} in
  (R, with_next_id (S (next_id σ)) (with_reactions (<[next_id σ := R]> (reactions σ)) σ)).

(** Modelled from the spec: [lookup(T)] of the missing Registry. *)
Definition candidates_of (σ : State) (K : TypeKey) : list Reaction :=
  default [] (triggered_by σ !! K).

(** The key is the marker type of an [Every<N, period>]. *)
Definition is_every (K : TypeKey) : bool :=
  match K with
  | EveryT _ _ => true
  | _ => false
  end.

(** Modelled from the spec: [bind(reaction)] of the missing Registry, atomic
    across all trigger keys (section 4.2).  It appends the reaction to
    [triggered_by[T]] for every trigger T; a trigger [Every<N, period>] also
    registers a timer entry (section 4.7). *)
Definition registry_bind (R : Reaction) (σ : State) : State :=
  let tb := foldl (fun m T => <[T := default [] (m !! T) ++ [R]]> m)
                  (triggered_by σ) (triggers R) in
  let ts := timers σ ++ ((fun _ => R) <$> filter (fun K => is_every K = true) (triggers R)) in
  with_timers ts (with_triggered_by tb σ).

(** *** Counters, liveness, sync groups *)

(** Modelled from the spec: the atomic [active] counter of a reaction
    (section 3), read, incremented and decremented; each is one atomic
    access. *)
Definition active_of (σ : State) (i : nat) : Z := default 0%Z (active σ !! i).

Definition incr_active (i : nat) (σ : State) : State :=
  with_active (<[i := (active_of σ i + 1)%Z]> (active σ)) σ.

Definition decr_active (i : nat) (σ : State) : State :=
  with_active (<[i := (active_of σ i - 1)%Z]> (active σ)) σ.

(** Modelled from the spec: the test "enabled and owner live" of the missing
    pipeline and worker loop. *)
Definition is_live (σ : State) (R : Reaction) : bool :=
  bool_decide (reaction_id R ∉ disabled σ) && bool_decide (owner R ∉ dead_owners σ).

(** The state of group G; a group never used is idle. *)
Definition sync_of (σ : State) (G : TypeKey) : SyncGroup :=
  default idle_group (syncs σ !! G).

(** Modelled from the spec: submission of a task to the TaskQueue by the
    missing pipeline, under the queue's mutex. *)
Definition enqueue (t : Task) (σ : State) : State :=
  with_queue (push t (queue σ)) σ.

(** Modelled from the spec: the admission protocol of the missing
    SyncScheduler (section 4.5), run under the group's lock.  No group: the
    task runs; group not running: the flag is set and the task runs;
    otherwise the task is pushed to the group's pending queue.  The boolean
    tells whether the task runs. *)
Definition admission (t : Task) (σ : State) : bool * State :=
  match task_group t with
  | None => (true, σ)
  | Some G =>
    let sg := sync_of σ G in
    if running sg then
      (false,
       with_syncs (<[G := {| running := true; pending := pending sg ++ [t];
                             heir := heir sg |}]> (syncs σ)) σ)
    else
      (true,
       with_syncs (<[G := {| running := true; pending := pending sg;
                             heir := heir sg |}]> (syncs σ)) σ)
  end.

(** Modelled from the spec: the release protocol of the missing
    SyncScheduler (section 4.5), run under the group's lock.  With nothing
    pending the group stops running.  Otherwise the next pending task is
    popped and submitted to the TaskQueue; the flag is not touched, and the
    group remembers the task as the one to resume. *)
Definition release (t : Task) (σ : State) : State :=
  match task_group t with
  | None => σ
  | Some G =>
    let sg := sync_of σ G in
    match pending sg with
    | [] =>
      with_syncs (<[G := {| running := false; pending := []; heir := heir sg |}]>
                    (syncs σ)) σ
    | n :: rest =>
      enqueue n
        (with_syncs (<[G := {| running := running sg; pending := rest;
                               heir := Some (submit_seq n) |}]> (syncs σ)) σ)
    end
  end.

(** Modelled from the spec: the resumption of a parked task (section 4.5,
    "the task will be resumed when the current holder completes"), in the
    missing SyncScheduler: the task that the release protocol resubmitted
    takes over the group, whose flag is still set, without going through
    admission again.  [None] when [t] is not that task.  A resubmitted task
    that fails the check of step 3 of the worker loop is dropped there, as
    that step says; the spec has no release on that path, and the group then
    stays taken. *)
Definition resumption (t : Task) (σ : State) : option State :=
  match task_group t with
  | None => None
  | Some G =>
    let sg := sync_of σ G in
    if bool_decide (heir sg = Some (submit_seq t)) then
      Some (with_syncs (<[G := {| running := running sg; pending := pending sg;
                                  heir := None |}]> (syncs σ)) σ)
    else None
  end.

(** Modelled from the spec: "consult SyncScheduler" of the worker loop
    (section 4.6 step 4; missing code): a resumed task runs, any other goes
    through admission.  The boolean tells whether the task runs. *)
Definition consult (t : Task) (σ : State) : bool * State :=
  match resumption t σ with
  | Some σ' => (true, σ')
  | None => admission t σ
  end.

(** *** EmitPipeline (section 4.3) *)

(** Modelled from the spec: the gathering of one With key by the missing
    pipeline (step 3b of section 4.3, and section 9).  It takes the DataStore
    snapshot; a null value skips the reaction unless the type is transient,
    in which case the value this reaction saw last stands in for it.  The
    bundle is the new payload followed by the With values, read one slot at a
    time (the DataStore has no cross-slot atomicity). *)
Definition gather_with (rid : nat) (st : gmap TypeKey Slot) (W : TypeKey)
    (c : gmap (nat * TypeKey) Payload)
    : option (option Payload * gmap (nat * TypeKey) Payload) :=
  match (get W st).1 with
  | Some x =>
    if transient W then Some (Some x, <[(rid, W) := x]> c) else Some (Some x, c)
  | None =>
    if transient W then Some (c !! (rid, W), c) else None
  end.

(** Modelled from the spec: whether step 1 of [emit] writes the DataStore.
    Step 1 makes an exception ("unless the emit scope is Local only, in which
    case the store is skipped") that sections 4.3 ("LOCAL: the normal pipeline
    above") and 8 contradict; [local_skips_store] keeps both readings. *)
Definition stores (m : Mode) : bool :=
  match m with
  | LocalEmitter => negb local_skips_store
  | _ => true
  end.

(** *** One step of one thread *)

(** Modelled from the spec: the next step of a thread of the missing runtime,
    one of the steps that sections 4.3 (emit pipeline), 4.5 (admission,
    release) and 4.6 (worker loop) enumerate; it returns the thread and the
    shared state afterwards.  A worker with an empty queue and an emitter
    that has nothing left to do stay as they are. *)
Definition thread_step (th : Thread) (σ : State) : Thread * State :=
  match pc th with
  | Ready =>
    match mode th with
    | WorkerThread =>
      (* 4.6 step 1: pop next task *)
      match pop (queue σ) with
      | Some (t, q') => (at_pc (Popped t) th, with_queue q' σ)
      | None => (th, σ)
      end
    | _ =>
      match todo th with
      | R :: rest =>
        (* 4.3 step 3: for each candidate R that is enabled and whose owner is live *)
        let th' := {| mode := mode th; emits := emits th; cur := cur th;
                      todo := rest; pc := Ready |} in
        if is_live σ R then (at_pc (Live R) th', σ) else (th', σ)
      | [] =>
        match emits th with
        | (K, p) :: es =>
          (* 4.3 step 1: seq = DataStore.put(KeyOf(T), payload) *)
          let σ' := if stores (mode th) then with_store (put K p (store σ)).1 σ else σ in
          ({| mode := mode th; emits := es; cur := p; todo := []; pc := Lookup K |}, σ')
        | [] => (th, σ)
        end
      end
    end
  | Lookup K =>
    (* 4.3 step 2: candidates = Registry.lookup(KeyOf(T)) *)
    ({| mode := mode th; emits := emits th; cur := cur th;
        todo := candidates_of σ K; pc := Ready |}, σ)
  | Live R =>
    (* 4.3 step 3a: if R.options.single and R.active > 0: drop *)
    if single (options R) && bool_decide (0 < active_of σ (reaction_id R))%Z
    then (at_pc Ready th, σ)
    else (at_pc (Gathering R (withs R) [cur th]) th, σ)
  | Gathering R (W :: Ws) bundle =>
    (* 4.3 step 3b: gather args, one With key; a missing dependency skips
       the reaction *)
    match gather_with (reaction_id R) (store σ) W (cache σ) with
    | None => (at_pc Ready th, σ)
    | Some (v, c) => (at_pc (Gathering R Ws (bundle ++ [v])) th, with_cache c σ)
    end
  | Gathering R [] bundle =>
    (* 4.3 step 3c: build task *)
    (at_pc (Built {| reaction := R; args := bundle; submit_seq := next_seq σ |}) th,
     with_next_seq (S (next_seq σ)) σ)
  | Built t =>
    (* 4.3 step 3c: increment R.active *)
    (at_pc (Counted t) th, incr_active (task_id t) σ)
  | Counted t =>
    (* 4.3 step 3c: submit; DIRECT bypasses the queue and honours Sync *)
    match mode th with
    | DirectEmitter =>
      let '(runs, σ') := admission t σ in
      (at_pc (if runs then Running t else Ready) th, σ')
    | _ => (at_pc Ready th, enqueue t σ)
    end
  | Popped t =>
    (* 4.6 step 3: check reaction still enabled and owner live *)
    if is_live σ (reaction t) then (at_pc (Checked t) th, σ)
    else (at_pc (Orphan t) th, σ)
  | Orphan t =>
    (* 4.6 step 3: if not, decrement active, drop, continue *)
    (at_pc Ready th, decr_active (task_id t) σ)
  | Checked t =>
    (* 4.6 step 4: consult SyncScheduler; if parked, continue *)
    let '(runs, σ') := consult t σ in
    (at_pc (if runs then Running t else Ready) th, σ')
  | Running t =>
    (* 4.6 steps 5 and 6: the callback returned or failed; decrement active *)
    (at_pc (Decremented t) th, decr_active (task_id t) σ)
  | Decremented t =>
    (* 4.6 step 6: release SyncScheduler slot (if any) *)
    (at_pc Ready th, release t σ)
  end.

(** *** The transition system *)

(** Modelled from the spec: what can happen next in the missing runtime.
    [LThread i] lets thread [i] take its next step; the other labels are
    calls of the Reactor API (by user code, wherever it runs), the start of
    a worker, the runtime entering Running and a timer entry firing. *)
Inductive Label : Type :=
| LBind (b : Binding)       (* on<...>(callback): create and register *)
| LDisable (rid : nat)      (* handle.disable() / unbind *)
| LEnable (rid : nat)
| LOwnerDies (o : nat)
| LEmit (scope : Scope) (K : TypeKey) (p : option Payload)
| LStart
| LEveryFire (i : nat)
| LWorker
| LThread (i : nat).

Definition spawn (th : Thread) (σ : State) : State :=
  with_threads (threads σ ++ [th]) σ.

(** A thread about to make the emits [es]. *)
Definition emitter (m : Mode) (es : list (TypeKey * option Payload)) : Thread :=
  {| mode := m; emits := es; cur := None; todo := []; pc := Ready |}.

(** Modelled from the spec: a call of [emit<Scope>] of the missing Reactor
    API (sections 4.3 and 6).  LOCAL and DIRECT start the pipeline on the
    calling thread; INITIALIZE is buffered until the runtime is running;
    NETWORK, UDP and TCP are handed to the network collaborator. *)
Definition emit (scope : Scope) (K : TypeKey) (p : option Payload) (σ : State) : State :=
  match scope with
  | LOCAL => spawn (emitter LocalEmitter [(K, p)]) σ
  | DIRECT => spawn (emitter DirectEmitter [(K, p)]) σ
  | INITIALIZE =>
    if started σ then spawn (emitter LocalEmitter [(K, p)]) σ
    else with_buffered (buffered σ ++ [(K, p)]) σ
  | NETWORK | UDP | TCP => with_outbox (outbox σ ++ [(scope, K, p)]) σ
  end.

(** Modelled from the spec: the runtime entering Running (section 4.8); one
    thread replays the buffered INITIALIZE emits, in order, as LOCAL. *)
Definition start (σ : State) : State :=
  if started σ then σ
  else spawn (emitter LocalEmitter (buffered σ))
             (with_buffered [] (with_started true σ)).

(** Modelled from the spec: a timer entry of the missing EveryScheduler
    fires (sections 2 and 4.7); the reaction is scheduled through the normal
    path from step 3 on, without the DataStore write and with no payload.
    The spec has a single timer thread; here every fire is dispatched by a
    thread of its own, which only adds interleavings. *)
Definition every_fire (i : nat) (σ : State) : State :=
  match timers σ !! i with
  | None => σ
  | Some R =>
    spawn {| mode := LocalEmitter; emits := []; cur := None; todo := [R]; pc := Ready |} σ
  end.

(** Modelled from the spec: one action of the missing runtime; a label that
    is not enabled (no such thread or timer) leaves the state as it is. *)
Definition step (σ : State) (l : Label) : State :=
  match l with
  | LBind b => let '(R, σ1) := create_reaction b σ in registry_bind R σ1
  | LDisable rid => with_disabled (disabled σ ∪ {[rid]}) σ
  | LEnable rid => with_disabled (disabled σ ∖ {[rid]}) σ
  | LOwnerDies o => with_dead_owners (dead_owners σ ∪ {[o]}) σ
  | LEmit scope K p => emit scope K p σ
  | LStart => start σ
  | LEveryFire i => every_fire i σ
  | LWorker => spawn {| mode := WorkerThread; emits := []; cur := None; todo := [];
                        pc := Ready |} σ
  | LThread i =>
    match threads σ !! i with
    | None => σ
    | Some th =>
      let '(th', σ') := thread_step th σ in
      with_threads (<[i := th']> (threads σ')) σ'
    end
  end.

(** The state reached from [init] by the actions [ls]: the reachable states
    are the [run ls]. *)
Definition run (ls : list Label) : State := foldl step init ls.

(** *** Bookkeeping used to state the invariants *)

(** How many elements of a list satisfy a test. *)
Definition tally {A : Type} (P : A -> bool) (l : list A) : nat :=
  length (filter (fun x => P x = true) l).

(** 1 if the test holds. *)
Definition bit (b : bool) : nat := if b then 1 else 0.

Definition has_id (i : nat) (t : Task) : bool := bool_decide (task_id t = i).
Definition is_reaction (i : nat) (R : Reaction) : bool := bool_decide (reaction_id R = i).
Definition in_group (G : TypeKey) (t : Task) : bool := bool_decide (task_group t = Some G).

(** The task a thread has in hand, if any. *)
Definition hand_tasks (th : Thread) : list Task :=
  match pc th with
  | Built t | Counted t | Popped t | Checked t | Orphan t | Running t
  | Decremented t => [t]
  | _ => []
  end.

(** The task in hand, if [active] has been incremented for it and not yet
    decremented. *)
Definition counted_hand (th : Thread) : list Task :=
  match pc th with
  | Counted t | Popped t | Checked t | Orphan t | Running t => [t]
  | _ => []
  end.

(** The task whose callback the thread is executing (the Running state of
    the task lifecycle). *)
Definition running_hand (th : Thread) : list Task :=
  match pc th with
  | Running t => [t]
  | _ => []
  end.

(** The task for which the thread holds (or may hold) a sync group: from the
    start of the callback to the release. *)
Definition holding_hand (th : Thread) : list Task :=
  match pc th with
  | Running t | Decremented t => [t]
  | _ => []
  end.

(** The reaction for which the thread is between the Single test (step 3a)
    and the increment of [active] (step 3c). *)
Definition window_hand (th : Thread) : list Reaction :=
  match pc th with
  | Gathering R _ _ => [R]
  | Built t => [reaction t]
  | _ => []
  end.

(** The reactions a thread still refers to. *)
Definition held_reactions (th : Thread) : list Reaction :=
  todo th ++ match pc th with
             | Live R | Gathering R _ _ => [R]
             | _ => []
             end.

(** Every parked task, over all sync groups. *)
Definition parked_tasks (m : gmap TypeKey SyncGroup) : list Task :=
  map_to_list m ≫= (fun Gsg => pending Gsg.2).

(** Every task in the system: queued, parked, or in the hand of a thread. *)
Definition all_tasks (σ : State) : list Task :=
  queue_tasks (queue σ) ++ parked_tasks (syncs σ) ++ (threads σ ≫= hand_tasks).

(** The tasks [active] accounts for. *)
Definition counted_tasks (σ : State) : list Task :=
  queue_tasks (queue σ) ++ parked_tasks (syncs σ) ++ (threads σ ≫= counted_hand).

(** The number of tasks of group G in the Running state. *)
Definition running_in (G : TypeKey) (σ : State) : nat :=
  tally (in_group G) (threads σ ≫= running_hand).

Definition holders (G : TypeKey) (σ : State) : nat :=
  tally (in_group G) (threads σ ≫= holding_hand).

(** Whether group G has been handed to a task that has not started yet. *)
Definition handed (G : TypeKey) (σ : State) : nat :=
  match heir (sync_of σ G) with
  | Some _ => 1
  | None => 0
  end.

(** The number of dispatches of reaction [i] between their Single test and
    their increment. *)
Definition window (i : nat) (σ : State) : nat :=
  tally (is_reaction i) (threads σ ≫= window_hand).

(** A reaction the pipeline can reach: listed under some trigger key or
    holding a timer entry. *)
Definition registered (σ : State) (R : Reaction) : Prop :=
  (∃ K, R ∈ candidates_of σ K) ∨ R ∈ timers σ.

Definition group_running (σ : State) (G : TypeKey) : bool := running (sync_of σ G).

(** The invariant of the transition system. *)
Record wf_state (σ : State) : Prop := {
  (* the OptionsTable is keyed by id, and ids are below the next id *)
  wf_table : ∀ i R, reactions σ !! i = Some R → reaction_id R = i ∧ (i < next_id σ)%nat;
  (* Registry and timers only hold created reactions *)
  wf_registered : ∀ R, registered σ R → reactions σ !! reaction_id R = Some R;
  (* so do the threads *)
  wf_held : ∀ R, R ∈ threads σ ≫= held_reactions →
                 reactions σ !! reaction_id R = Some R;
  (* and the tasks *)
  wf_tasks : ∀ t, t ∈ all_tasks σ → reactions σ !! task_id t = Some (reaction t);
  (* active counts the reaction's tasks between increment and decrement *)
  wf_active : ∀ i, active_of σ i = Z.of_nat (tally (has_id i) (counted_tasks σ));
  (* Sync: a group is held by at most one task, running or about to be
     resumed, and only under the group's running flag *)
  wf_sync : ∀ G, (holders G σ + handed G σ <= bit (group_running σ G))%nat
}.

(** The step is a Single test (step 3a) on reaction [i] taken while another
    dispatch of [i] is between its test and its increment. *)
Definition test_overlaps (i : nat) (σ : State) (l : Label) : bool :=
  match l with
  | LThread n =>
    match threads σ !! n with
    | Some th =>
      match pc th with
      | Live R => is_reaction i R && negb (window i σ =? 0)%nat
      | _ => false
      end
    | None => false
    end
  | _ => false
  end.

(** No step of the run [ls] from [σ] is such an overlapping test: the
    dispatches of reaction [i] go through steps 3a to 3c one at a time. *)
Fixpoint serial_tests (i : nat) (σ : State) (ls : list Label) : bool :=
  match ls with
  | [] => true
  | l :: ls' => negb (test_overlaps i σ l) && serial_tests i (step σ l) ls'
  end.

End Core.

Arguments Task : clear implicits.
Arguments Slot : clear implicits.
Arguments TaskQueue : clear implicits.
Arguments SyncGroup : clear implicits.
Arguments PC : clear implicits.
Arguments Thread : clear implicits.
Arguments State : clear implicits.
Arguments Label : clear implicits.
Arguments QueueOp : clear implicits.

End Engine.

(** ** nuclear_bits/dsl/word/Network.hpp *)

Module Network.
Import Engine.

(** [util::network::sock_t] (sock_t.hpp) is missing: an address is kept as
    its raw bytes. *)
Record NetworkSource : Type := {
  name : string;
  address : list byte
}.

(** [struct NetworkListen { uint64_t hash; std::shared_ptr<Reaction> reaction; }];
    a null [shared_ptr] is [None]. *)
Record NetworkListen : Type := {
  hash : N;
  reaction : option Reaction
}.

(** [NetworkListen() : hash(), reaction() {}] *)
Definition NetworkListen_default : NetworkListen := {| hash := 0%N; reaction := None |}.

(** [threading::ReactionHandle], constructed from the reaction it refers to. *)
Record ReactionHandle : Type := {
  context : option Reaction
}.

(** [store::ThreadStore<std::vector<char>>::value] and
    [store::ThreadStore<NetworkSource>::value]: two thread-local pointers,
    either of which may be null. *)
Record ThreadStore : Type := {
  data_value : option (list byte);
  source_value : option NetworkSource
}.

Section Word.

(** The reactor and the callback are opaque to [bind]. *)
Context {Reactor Function : Type}.

(** Missing collaborators, taken as parameters:
    [util::serialise::Serialise<T>::hash()] (Serialise.hpp),
    [util::generate_reaction<DSL, TUnbind>(reactor, label, callback)]
    (generate_reaction.h) and [reactor.powerplant.emit<emit::Direct>(task)]
    (PowerPlant.h); the last two may change the reactor's power plant. *)
Variable serialise_hash : CppType -> N.
Variable generate_reaction :
  CppType -> CppType -> Reactor -> string -> Function -> Reaction * Reactor.
Variable emit_Direct : NetworkListen -> Reactor -> Reactor.

(** [Network<T>::bind<DSL, Function>(reactor, label, callback)]: the handle
    and the reactor afterwards. *)
Definition bind (T DSL : CppType) (reactor : Reactor) (label : string)
    (callback : Function) : ReactionHandle * Reactor :=
  let task := NetworkListen_default in
  let task := {| hash := serialise_hash T; reaction := reaction task |} in
  let '(R, reactor1) :=
    generate_reaction DSL NetworkListenT reactor label callback in
  let task := {| hash := hash task; reaction := Some R |} in
  let handle := {| context := reaction task |} in
  let reactor2 := emit_Direct task reactor1 in
  (handle, reactor2).

End Word.

Section Get.

(** The message type and [util::serialise::Serialise<T>::deserialise]
    (Serialise.hpp is missing). *)
Context {T : Type}.
Variable deserialise : list byte -> T.

(** [Network<T>::get<DSL>(threading::Reaction&)]: the pair
    [(std::shared_ptr<NetworkSource>, NetworkData<T>)]. *)
Definition get (ts : ThreadStore) : option NetworkSource * option T :=
  let data := data_value ts in
  let source := source_value ts in
  match data, source with
  | Some data, Some source =>
    (* Return our deserialised data *)
    (Some {| name := name source; address := address source |},
     Some (deserialise data))
  | _, _ =>
    (* Return invalid data *)
    (None, None)
  end.

End Get.
End Network.

(** ** Concrete scenarios

    Small instances of the definitions above, used to run them. *)

Module Scenarios.
Import Engine.

Definition Ping : TypeKey := Named "Ping".
Definition GroupG : TypeKey := Named "G".

(** Nothing but what Network.hpp specialises is transient. *)
Definition transient : TypeKey -> bool := trait.is_transient (fun _ => false).

(** A Single reaction on Ping. *)
Definition single_binding : Binding :=
  {| b_owner := 1; b_triggers := [Ping]; b_withs := []; b_invoker := 11;
     b_options := {| priority := NORMAL; sync_group := None; single := true |};
     b_identifier := ["slow"; "Trigger<Ping>"; "callback"] |}.

Definition single_reaction : Reaction :=
  {| reaction_id := 0; owner := 1; triggers := [Ping]; withs := []; invoker := 11;
     options := {| priority := NORMAL; sync_group := None; single := true |};
     identifier := ["slow"; "Trigger<Ping>"; "callback"] |}.

(** A thread's LOCAL emit on a key with one candidate that has no With takes
    seven steps: the DataStore write, the Registry lookup, the live check,
    the Single test, the building of the task, the increment of [active] and
    the submission. *)
Definition steps (n i : nat) : list (Label unit) := replicate n (LThread i).

(** Scenario 3 (Single drop), one dispatch after the other: two threads emit
    Ping; the first one dispatches the reaction to the end, then the second
    one reaches the Single test. *)
Definition serial_run : list (Label unit) :=
  [LBind single_binding; LEmit LOCAL Ping (Some tt); LEmit LOCAL Ping (Some tt)]
  ++ steps 7 0 ++ steps 3 1.

(** The same two emits, interleaved: the second thread takes the Single test
    after the first one has taken it and before the first one has
    incremented [active]. *)
Definition racing_run : list (Label unit) :=
  [LBind single_binding; LEmit LOCAL Ping (Some tt); LEmit LOCAL Ping (Some tt)]
  ++ steps 4 0 ++ steps 4 1 ++ steps 2 0 ++ steps 2 1.

(** A Sync<G> reaction on Ping, two emits and two workers (threads 2 and 3):
    the first worker starts the first task, the second one parks the
    second task. *)
Definition sync_binding : Binding :=
  {| b_owner := 1; b_triggers := [Ping]; b_withs := []; b_invoker := 12;
     b_options := {| priority := NORMAL; sync_group := Some GroupG; single := false |};
     b_identifier := ["serial"; "Trigger<Ping>"; "callback"] |}.

Definition sync_run : list (Label unit) :=
  [LBind sync_binding; LEmit LOCAL Ping (Some tt); LEmit LOCAL Ping (Some tt);
   LWorker; LWorker]
  ++ steps 7 0 ++ steps 7 1 ++ steps 3 2 ++ steps 3 3.

(** Then the first task completes and releases the group, and the second
    worker dequeues the second task a second time and starts it. *)
Definition handover_run : list (Label unit) :=
  sync_run ++ steps 2 2 ++ steps 3 3.

(** Three reactions of priorities LOW, HIGH and NORMAL on one key, and one
    emit dispatched to the end. *)
Definition priority_binding (P : EPriority) : Binding :=
  {| b_owner := 1; b_triggers := [Ping]; b_withs := []; b_invoker := 13;
     b_options := {| priority := P; sync_group := None; single := false |};
     b_identifier := [] |}.

Definition priority_run : list (Label unit) :=
  [LBind (priority_binding LOW); LBind (priority_binding HIGH);
   LBind (priority_binding NORMAL); LEmit LOCAL Ping (Some tt)]
  ++ steps 17 0.

(** Three DSL words: one with its own hook taking one argument, one without
    any hook, one whose hook comes from its DSLProxy.  The reactor counts the
    calls and each hook returns the handles named after it. *)
Definition trigger_word : BindFusion.Word nat unit nat nat :=
  {| BindFusion.word_name := "Trigger";
     BindFusion.own_bind :=
       Some {| BindFusion.hook_arity := 1;
               BindFusion.hook_run := fun r _ _ args => (S r, 10%nat :: args) |};
     BindFusion.proxy_bind := None |}.

Definition with_word : BindFusion.Word nat unit nat nat :=
  {| BindFusion.word_name := "With";
     BindFusion.own_bind := None;
     BindFusion.proxy_bind := None |}.

Definition proxied_word : BindFusion.Word nat unit nat nat :=
  {| BindFusion.word_name := "Startup";
     BindFusion.own_bind := None;
     BindFusion.proxy_bind :=
       Some {| BindFusion.hook_arity := 0;
               BindFusion.hook_run := fun r _ _ _ => (S r, [20%nat]) |} |}.

Definition fused_words : list (BindFusion.Word nat unit nat nat) :=
  [trigger_word; with_word; proxied_word].

End Scenarios.

(** ** Observing the calls of a fusion

    A reactor that records every call made on it: each hook is wrapped so
    that it appends the identifier, the callback and the run-time arguments
    it was called with to a call record. *)

Module FusionTrace.
Import BindFusion.

Section Traced.
Context {Reactor Callback Arg Handle : Type}.

Definition trace_hook (h : Hook Reactor Callback Arg Handle)
    : Hook (Reactor * list (string * Callback * list Arg)) Callback Arg Handle :=
  {| hook_arity := hook_arity h;
     hook_run := fun r identifier callback args =>
       let '(r', hs) := hook_run h (fst r) identifier callback args in
       ((r', snd r ++ [(identifier, callback, args)]), hs) |}.

Definition trace_word (w : Word Reactor Callback Arg Handle)
    : Word (Reactor * list (string * Callback * list Arg)) Callback Arg Handle :=
  {| word_name := word_name w;
     own_bind := trace_hook <$> own_bind w;
     proxy_bind := trace_hook <$> proxy_bind w |}.

(** The calls an in-order run of [hooks] makes: each hook with the next
    [hook_arity] arguments. *)
Fixpoint hook_calls (identifier : string) (callback : Callback)
    (hooks : list (Hook Reactor Callback Arg Handle)) (args : list Arg)
    : list (string * Callback * list Arg) :=
  match hooks with
  | [] => []
  | h :: rest =>
    (identifier, callback, take (hook_arity h) args)
    :: hook_calls identifier callback rest (drop (hook_arity h) args)
  end.

End Traced.
End FusionTrace.

(** ** More concrete scenarios *)

Module MoreScenarios.
Import BindFusion.

(** A word whose own hook takes [n] arguments, counts its call on the reactor
    and returns the single handle [k]. *)
Definition counting_word (name : string) (n k : nat) : Word nat unit nat nat :=
  {| word_name := name;
     own_bind := Some {| hook_arity := n;
                         hook_run := fun r _ _ _ => (S r, [k]) |};
     proxy_bind := None |}.

(** A word without any hook. *)
Definition silent_word (name : string) : Word nat unit nat nat :=
  {| word_name := name; own_bind := None; proxy_bind := None |}.

Definition front_words : list (Word nat unit nat nat) :=
  [counting_word "Trigger" 2 10; silent_word "With"].

Definition back_words : list (Word nat unit nat nat) :=
  [silent_word "Options"; counting_word "Every" 1 20].

End MoreScenarios.

(* ===================================================================== *)
(* ===================================================================== *)
(** * Part II: theorems                                                   *)
(* ===================================================================== *)

(** ** get_identifier *)

Module GetIdentifierFacts.
Import util.

Lemma push_back_length {A : Type} (v : list A) (x : A) :
  length (push_back v x) = S (length v).
Proof. unfold push_back. rewrite length_app. simpl. lia. Qed.

(** C8: for every user label and every pair of types, [get_identifier]
    returns exactly three strings: the label unchanged, then the demangled
    name of the fusion type, then the demangled name of the callback type. *)
Theorem get_identifier_three_elements :
  forall (typeid_name : CppType -> string) (demangle : string -> string)
         (TFusion TFunc : CppType) (usr : string),
    get_identifier typeid_name demangle TFusion TFunc usr
      = [usr; demangle (typeid_name TFusion); demangle (typeid_name TFunc)]
    /\ length (get_identifier typeid_name demangle TFusion TFunc usr) = 3%nat
    /\ get_identifier typeid_name demangle TFusion TFunc usr !! 0%nat = Some usr
    /\ get_identifier typeid_name demangle TFusion TFunc usr !! 1%nat
         = Some (demangle (typeid_name TFusion))
    /\ get_identifier typeid_name demangle TFusion TFunc usr !! 2%nat
         = Some (demangle (typeid_name TFunc)).
Proof.
  intros. unfold get_identifier.
  split; [reflexivity|]. split; [by rewrite !push_back_length|].
  repeat split.
Qed.

End GetIdentifierFacts.

(** ** BindFusion *)

Module BindFusionFacts.
Import BindFusion.

Section Facts.
Context {Reactor Callback Arg Handle : Type}.
Implicit Types (w : Word Reactor Callback Arg Handle)
               (words : list (Word Reactor Callback Arg Handle)).

Lemma has_any_bind_selected w :
  has_any_bind w = true <-> is_Some (selected_bind w).
Proof.
  unfold has_any_bind, selected_bind.
  destruct (own_bind w) as [h|], (proxy_bind w) as [h'|]; simpl;
    split; intros H; try done; try (by eexists); by destruct H.
Qed.

Lemma no_bind_selected w :
  has_any_bind w = false <-> selected_bind w = None.
Proof.
  unfold has_any_bind, selected_bind.
  destruct (own_bind w) as [h|], (proxy_bind w) as [h'|]; simpl; split; done.
Qed.

Lemma children_bind_false_hooks words :
  children_bind words = false -> hooks_of words = [].
Proof.
  unfold children_bind, hooks_of.
  induction words as [|w ws IH]; simpl; [done|].
  intros H. apply orb_false_iff in H as [Hw Hws].
  apply no_bind_selected in Hw. rewrite Hw. by apply IH.
Qed.

Lemma hooks_of_cons w words :
  hooks_of (w :: words)
  = match selected_bind w with
    | Some h => h :: hooks_of words
    | None => hooks_of words
    end.
Proof. unfold hooks_of. simpl. by destruct (selected_bind w). Qed.

(** With hooks somewhere in the list and arguments that fit their
    signatures, the fusion is defined and equals the in-order run. *)
Lemma bind_is_run_hooks words :
  forall (reactor : Reactor) (identifier : string) (callback : Callback)
         (args : list Arg),
    children_bind words = true ->
    total_arity words = length args ->
    bind words reactor identifier callback args
    = Some (run_hooks_in_order (hooks_of words) reactor identifier callback args).
Proof.
  induction words as [|TFirst TWords IH]; intros reactor identifier callback args Hany Har.
  - discriminate.
  - simpl. unfold total_arity in Har. rewrite hooks_of_cons in *.
    destruct (has_any_bind TFirst) eqn:Hfirst.
    + apply has_any_bind_selected in Hfirst as [h Hh]. rewrite Hh in *.
      assert (hook_arity h + total_arity TWords = length args)%nat as Har'
        by exact Har.
      clear Har.
      destruct (children_bind TWords) eqn:Hrest.
      * simpl. unfold BindFission_bind. rewrite decide_True by lia.
        destruct (hook_run h reactor identifier callback (take (hook_arity h) args))
          as [reactor1 init] eqn:Hrun.
        rewrite IH; [|done|].
        -- destruct (run_hooks_in_order _ _ _ _ _) as [reactor2 more]. done.
        -- rewrite length_drop. lia.
      * unfold total_arity in Har'.
        rewrite (children_bind_false_hooks _ Hrest) in *. simpl in *.
        rewrite decide_True by lia.
        rewrite firstn_all2 by lia.
        destruct (hook_run h reactor identifier callback args) as [r1 hs].
        by rewrite app_nil_r.
    + simpl in Hany. rewrite Hfirst in Hany. simpl in Hany. rewrite Hany.
      apply no_bind_selected in Hfirst. rewrite Hfirst in *.
      by apply IH.
Qed.

(** Without any hook the instantiation does not exist. *)
Lemma bind_none_without_hooks words reactor identifier callback (args : list Arg) :
  children_bind words = false ->
  bind words reactor identifier callback args = None.
Proof.
  destruct words as [|TFirst TWords]; [done|].
  simpl. intros H. apply orb_false_iff in H as [-> ->]. done.
Qed.

End Facts.

Section LoggedFacts.
Context {Reactor Callback Arg Handle : Type}.
Implicit Types (w : Word Reactor Callback Arg Handle)
               (words : list (Word Reactor Callback Arg Handle)).

(** Running the logged hooks in order yields the same reactor and handles
    as the plain hooks, and extends the log by the names of the words that
    have a hook, in word order. *)
Lemma run_logged_hooks words :
  forall (reactor : Reactor) (log : list string) (identifier : string)
         (callback : Callback) (args : list Arg),
    run_hooks_in_order (hooks_of (log_word <$> words)) (reactor, log)
                       identifier callback args
    = let '(r', hs) :=
        run_hooks_in_order (hooks_of words) reactor identifier callback args in
      ((r', log ++ (word_name <$> filter (fun w => has_any_bind w = true) words)), hs).
Proof.
  induction words as [|w ws IH]; intros reactor log identifier callback args.
  - simpl. by rewrite app_nil_r.
  - rewrite fmap_cons, !hooks_of_cons, filter_cons.
    destruct (has_any_bind w) eqn:Hw.
    + destruct (has_any_bind_selected w) as [Hsel _].
      destruct (Hsel Hw) as [h Hh].
      assert (selected_bind (log_word w) = Some (log_hook (word_name w) h)) as ->.
      { unfold selected_bind in *. simpl.
        destruct (own_bind w); simpl; [congruence|]. by rewrite Hh. }
      rewrite Hh. rewrite decide_True by done. simpl.
      destruct (hook_run h reactor identifier callback (take (hook_arity h) args))
        as [r1 hs1].
      rewrite IH.
      destruct (run_hooks_in_order (hooks_of ws) r1 identifier callback _) as [r2 hs2].
      by rewrite <- app_assoc.
    + destruct (no_bind_selected w) as [Hsel _]. rewrite (Hsel Hw).
      assert (selected_bind (log_word w) = None) as ->.
      { unfold selected_bind in *. simpl. specialize (Hsel Hw).
        destruct (own_bind w); [done|]. simpl. by rewrite Hsel. }
      rewrite decide_False by done. apply IH.
Qed.

Lemma children_bind_log_word words :
  children_bind (log_word <$> words) = children_bind words.
Proof.
  unfold children_bind. induction words as [|w ws IH]; csimpl; [done|].
  rewrite IH. f_equal. unfold has_any_bind. simpl.
  by destruct (own_bind w), (proxy_bind w).
Qed.

Lemma total_arity_log_word words :
  total_arity (log_word <$> words) = total_arity words.
Proof.
  unfold total_arity. induction words as [|w ws IH]; [done|].
  rewrite fmap_cons, !hooks_of_cons. unfold selected_bind. simpl.
  destruct (own_bind w), (proxy_bind w); csimpl; by rewrite ?IH.
Qed.

(** C5: for every word list in which some word has a bind hook, and
    arguments that fit the hooks' signatures, [BindFusion::bind] is the
    in-order run of the hooks of the words that have one (the word's own
    hook, else its DSLProxy's), words without a hook being skipped, and
    returns the concatenation of their handle vectors in that order; on a
    reactor that logs calls, each such word is logged exactly once, in word
    order. *)
Theorem bind_invokes_each_hook_once_in_order :
  forall (words : list (Word Reactor Callback Arg Handle))
         (reactor : Reactor) (identifier : string) (callback : Callback)
         (args : list Arg),
    children_bind words = true ->
    total_arity words = length args ->
    let result := run_hooks_in_order (hooks_of words) reactor identifier callback args in
    bind words reactor identifier callback args = Some result
    /\ forall log : list string,
         bind (log_word <$> words) (reactor, log) identifier callback args
         = Some ((result.1,
                  log ++ (word_name <$> filter (fun w => has_any_bind w = true) words)),
                 result.2).
Proof.
  intros words reactor identifier callback args Hany Har result. split.
  - by apply bind_is_run_hooks.
  - intros log. rewrite bind_is_run_hooks.
    + rewrite run_logged_hooks. subst result.
      by destruct (run_hooks_in_order (hooks_of words) _ _ _ _).
    + by rewrite children_bind_log_word.
    + by rewrite total_arity_log_word.
Qed.

End LoggedFacts.
End BindFusionFacts.

(** ** Network<T>::get and the transient trait *)

Module NetworkGetFacts.
Import Network.

Lemma NetworkSource_copy (source : NetworkSource) :
  {| name := name source; address := address source |} = source.
Proof. by destruct source. Qed.

(** C10: [Network<T>::get] returns a pair whose elements are both null or
    both non-null: if either thread-store slot is null it returns
    (null, null); if both are set it returns a copy of the stored source
    together with the value deserialised from the stored bytes. *)
Theorem get_returns_both_or_neither :
  forall (T : Type) (deserialise : list byte -> T) (ts : ThreadStore),
    get deserialise ts
    = match data_value ts, source_value ts with
      | Some data, Some source => (Some source, Some (deserialise data))
      | _, _ => (None, None)
      end
    /\ ((get deserialise ts).1 = None <-> (get deserialise ts).2 = None)
    /\ (is_Some (get deserialise ts).1 <-> is_Some (get deserialise ts).2)
    /\ ((get deserialise ts).1 = None
        <-> data_value ts = None \/ source_value ts = None).
Proof.
  intros T deserialise ts. unfold get.
  destruct (data_value ts) as [data|], (source_value ts) as [source|]; simpl;
    rewrite ?NetworkSource_copy;
    repeat split; try done; intros H;
    try (by destruct H); try (by eexists); try (by left); try (by right).
Qed.

End NetworkGetFacts.

Module TransientFacts.
Import Engine.

(** C9: the trait holds for [NetworkData<T>], for every T, and for
    [std::shared_ptr<NetworkSource>], whatever the primary template answers;
    and for such a type a reaction's gather remembers the value it saw: once
    a value x has been gathered by reaction rid, a later gather by rid over a
    null slot still yields x, while the memory of other reactions is left
    alone. *)
Theorem network_inputs_are_transient :
  forall (primary : CppType -> bool) (T : CppType),
    trait.is_transient primary (NetworkDataT T) = true
    /\ trait.is_transient primary (SharedPtrT NetworkSourceT) = true
    /\ forall (Payload : Type) (W : TypeKey) (rid : nat) (x : Payload)
              (st : gmap TypeKey (Slot Payload)) (c : gmap (nat * TypeKey) Payload),
         let seen := (put W (Some x) st).1 in
         let emptied := (put W None seen).1 in
         let c1 := <[(rid, W) := x]> c in
         W ∈ [NetworkDataT T; SharedPtrT NetworkSourceT] ->
         gather_with (trait.is_transient primary) rid seen W c = Some (Some x, c1)
         /\ gather_with (trait.is_transient primary) rid emptied W c1
            = Some (Some x, c1)
         /\ forall rid' : nat, rid' <> rid -> c1 !! (rid', W) = c !! (rid', W).
Proof.
  intros primary T. split; [done|]. split; [done|].
  intros Payload W rid x st c seen emptied c1 HW.
  assert (trait.is_transient primary W = true) as Htr.
  { apply elem_of_cons in HW as [->|HW]; [done|].
    apply list_elem_of_singleton in HW as ->. done. }
  unfold gather_with, get. subst seen emptied c1. simpl.
  rewrite !lookup_insert_eq. simpl. rewrite Htr.
  split; [done|]. split; [done|].
  intros rid' Hne. rewrite lookup_insert_ne; [done|congruence].
Qed.

End TransientFacts.

(** ** TaskQueue *)

Module TaskQueueFacts.
Import Engine.

Section Facts.
Context {Payload : Type}.
Implicit Types (t u : Task Payload) (q : TaskQueue Payload) (l : list (Task Payload)).

Lemma bucket_with_bucket_eq p l q : bucket p (with_bucket p l q) = l.
Proof. by destruct p. Qed.

Lemma bucket_with_bucket_ne p p' l q :
  p <> p' -> bucket p' (with_bucket p l q) = bucket p' q.
Proof. by destruct p, p'. Qed.

Lemma elem_of_queue_tasks u q :
  u ∈ queue_tasks q <-> exists p, u ∈ bucket p q.
Proof.
  unfold queue_tasks. rewrite !elem_of_app. split.
  - intros [H|[H|[H|[H|H]]]];
      [exists REALTIME|exists HIGH|exists NORMAL|exists LOW|exists LOWEST]; done.
  - intros [[] H]; simpl in H; tauto.
Qed.

Lemma queue_tasks_with_bucket p x l q :
  bucket p q = l ->
  queue_tasks (with_bucket p (x :: l) q) ≡ₚ x :: queue_tasks q.
Proof.
  intros <-. unfold queue_tasks.
  destruct p; simpl; solve_Permutation.
Qed.

Lemma queue_tasks_bucket_perm p l l' q :
  l ≡ₚ l' ->
  queue_tasks (with_bucket p l q) ≡ₚ queue_tasks (with_bucket p l' q).
Proof. intros H. unfold queue_tasks. destruct p; simpl; by rewrite H. Qed.

Lemma with_bucket_same p q : with_bucket p (bucket p q) q = q.
Proof. by destruct p, q. Qed.

Lemma with_bucket_twice p l l' q :
  with_bucket p l (with_bucket p l' q) = with_bucket p l q.
Proof. by destruct p. Qed.

Lemma insert_by_seq_perm t l : insert_by_seq t l ≡ₚ t :: l.
Proof.
  induction l as [|u l IH]; simpl; [done|].
  case_decide; [|done]. rewrite IH. apply perm_swap.
Qed.

Lemma insert_by_seq_sorted t l :
  StronglySorted seq_le l -> StronglySorted seq_le (insert_by_seq t l).
Proof.
  induction 1 as [|u l Hl IH Hu]; simpl.
  - repeat constructor.
  - case_decide as Hle.
    + constructor; [done|].
      rewrite insert_by_seq_perm. by constructor.
    + constructor; [by constructor|].
      constructor; [unfold seq_le; lia|].
      eapply Forall_impl; [exact Hu|]. unfold seq_le. intros; simpl in *; lia.
Qed.

Lemma push_tasks t q : queue_tasks (push t q) ≡ₚ t :: queue_tasks q.
Proof.
  unfold push.
  rewrite (queue_tasks_bucket_perm _ _ _ _ (insert_by_seq_perm _ _)).
  by apply queue_tasks_with_bucket.
Qed.

Lemma push_wf t q : queue_wf q -> queue_wf (push t q).
Proof.
  intros Hq p. unfold push.
  destruct (decide (task_priority t = p)) as [<-|Hne].
  - rewrite bucket_with_bucket_eq. destruct (Hq (task_priority t)) as [Hp Hs].
    split; [|by apply insert_by_seq_sorted].
    rewrite insert_by_seq_perm. by constructor.
  - rewrite bucket_with_bucket_ne by done. apply Hq.
Qed.

Lemma empty_queue_wf : queue_wf (@empty_queue Payload).
Proof. intros []; simpl; split; constructor. Qed.

(** What [pop] returns: the head of bucket p, every bucket served before p
    being empty. *)
Lemma pop_Some q t q' :
  pop q = Some (t, q') ->
  exists p rest,
    bucket p q = t :: rest /\ q' = with_bucket p rest q
    /\ forall p', (priority_rank p' < priority_rank p)%nat -> bucket p' q = [].
Proof.
  destruct q as [R H N L W]. unfold pop, levels. simpl.
  destruct R as [|t0 r0].
  2:{ intros [= <- <-]. exists REALTIME, r0. split; [reflexivity|].
      split; [reflexivity|]. intros []; simpl; lia. }
  destruct H as [|t1 r1].
  2:{ intros [= <- <-]. exists HIGH, r1. split; [reflexivity|].
      split; [reflexivity|]. intros []; simpl; (done || lia). }
  destruct N as [|t2 r2].
  2:{ intros [= <- <-]. exists NORMAL, r2. split; [reflexivity|].
      split; [reflexivity|]. intros []; simpl; (done || lia). }
  destruct L as [|t3 r3].
  2:{ intros [= <- <-]. exists LOW, r3. split; [reflexivity|].
      split; [reflexivity|]. intros []; simpl; (done || lia). }
  destruct W as [|t4 r4]; [done|].
  intros [= <- <-]. exists LOWEST, r4. split; [reflexivity|].
  split; [reflexivity|]. intros []; simpl; (done || lia).
Qed.

Lemma pop_None q : pop q = None -> queue_tasks q = [].
Proof.
  unfold pop, levels, queue_tasks. simpl.
  destruct (realtime_q q); [|done]. destruct (high_q q); [|done].
  destruct (normal_q q); [|done]. destruct (low_q q); [|done].
  by destruct (lowest_q q).
Qed.

Lemma pop_tasks q t q' :
  pop q = Some (t, q') -> queue_tasks q ≡ₚ t :: queue_tasks q'.
Proof.
  intros (p & rest & Hb & -> & _)%pop_Some.
  rewrite <- (queue_tasks_with_bucket p t rest (with_bucket p rest q)).
  - by rewrite with_bucket_twice, <- Hb, with_bucket_same.
  - by rewrite bucket_with_bucket_eq.
Qed.

Lemma pop_wf q t q' : queue_wf q -> pop q = Some (t, q') -> queue_wf q'.
Proof.
  intros Hq (p & rest & Hb & -> & _)%pop_Some p'.
  destruct (decide (p = p')) as [<-|Hne].
  - rewrite bucket_with_bucket_eq. destruct (Hq p) as [Hp Hs].
    rewrite Hb in Hp, Hs.
    apply Forall_cons in Hp as [_ Hp]. apply StronglySorted_inv in Hs as [Hs _].
    done.
  - rewrite bucket_with_bucket_ne by done. apply Hq.
Qed.

(** The popped task goes before everything left in the queue. *)
Lemma pop_first q t q' :
  queue_wf q -> pop q = Some (t, q') -> Forall (pops_before t) (queue_tasks q').
Proof.
  intros Hq (p & rest & Hb & -> & Hempty)%pop_Some.
  apply Forall_forall. intros u [p' Hu]%elem_of_queue_tasks.
  destruct (Hq p) as [Hp Hs]. rewrite Hb in Hp, Hs.
  apply Forall_cons in Hp as [Ht Hp]. apply StronglySorted_inv in Hs as [_ Hs].
  destruct (decide (p = p')) as [<-|Hne].
  - rewrite bucket_with_bucket_eq in Hu. right.
    rewrite Forall_forall in Hp, Hs. split; [by rewrite Ht, (Hp u Hu)|].
    by apply Hs.
  - rewrite bucket_with_bucket_ne in Hu by done.
    destruct (Hq p') as [Hp' _]. rewrite Forall_forall in Hp'.
    left. rewrite Ht, (Hp' u Hu).
    destruct (decide (priority_rank p' < priority_rank p)%nat) as [Hlt|Hge].
    + rewrite (Hempty p' Hlt) in Hu. by apply elem_of_nil in Hu.
    + assert (priority_rank p <> priority_rank p') by (by destruct p, p').
      lia.
Qed.

Lemma queue_op_wf q op : queue_wf q -> queue_wf (queue_op q op).
Proof.
  intros Hq. destruct op as [t|]; simpl.
  - by apply push_wf.
  - destruct (pop q) as [[t q']|] eqn:Hpop; [|done]. by eapply pop_wf.
Qed.

Lemma queue_after_wf (ops : list (QueueOp Payload)) : queue_wf (queue_after ops).
Proof.
  unfold queue_after. generalize empty_queue_wf.
  generalize (@empty_queue Payload).
  induction ops as [|op ops IH]; intros q Hq; simpl; [done|].
  apply IH. by apply queue_op_wf.
Qed.

Lemma drain_perm q :
  forall n, n = length (queue_tasks q) -> drain n q ≡ₚ queue_tasks q.
Proof.
  intros n. revert q. induction n as [|n IH]; intros q Hn; simpl.
  - symmetry in Hn. apply nil_length_inv in Hn. by rewrite Hn.
  - destruct (pop q) as [[t q']|] eqn:Hpop.
    + pose proof (pop_tasks _ _ _ Hpop) as Hperm.
      rewrite Hperm. f_equiv. apply IH.
      apply Permutation_length in Hperm. simpl in Hperm. lia.
    + apply pop_None in Hpop. rewrite Hpop in Hn. done.
Qed.

Lemma drain_subset n q u : u ∈ drain n q -> u ∈ queue_tasks q.
Proof.
  revert q. induction n as [|n IH]; intros q; simpl.
  - by intros ?%elem_of_nil.
  - destruct (pop q) as [[t q']|] eqn:Hpop; [|by intros ?%elem_of_nil].
    rewrite (pop_tasks _ _ _ Hpop).
    intros [->|H]%elem_of_cons; [left|right]. by apply IH.
Qed.

Lemma drain_sorted n q : queue_wf q -> StronglySorted pops_before (drain n q).
Proof.
  revert q. induction n as [|n IH]; intros q Hq; simpl; [constructor|].
  destruct (pop q) as [[t q']|] eqn:Hpop; [|constructor].
  constructor.
  - apply IH. by eapply pop_wf.
  - pose proof (pop_first _ _ _ Hq Hpop) as Hfirst.
    rewrite Forall_forall in Hfirst. apply Forall_forall.
    intros u Hu. apply Hfirst. by eapply drain_subset.
Qed.

(** C4: whatever the history of submissions and pops, the queue pops its
    tasks in the order (priority descending, submit_seq ascending): the task
    popped next goes before every task left behind, that is, it has strictly
    higher priority or the same priority and a submit_seq that is not larger;
    draining the queue yields all its tasks, in that order. *)
Theorem pop_order_priority_then_seq :
  forall (ops : list (QueueOp Payload)),
    let q := queue_after ops in
    match pop q with
    | Some (t, q') =>
      Forall (pops_before t) (queue_tasks q') /\ queue_tasks q ≡ₚ t :: queue_tasks q'
    | None => queue_tasks q = []
    end
    /\ StronglySorted pops_before (drain_all q)
    /\ drain_all q ≡ₚ queue_tasks q.
Proof.
  intros ops q. pose proof (queue_after_wf ops) as Hq. fold q in Hq.
  split; [|split].
  - destruct (pop q) as [[t q']|] eqn:Hpop.
    + split; [by eapply pop_first|by apply pop_tasks].
    + by apply pop_None.
  - by apply drain_sorted.
  - by apply drain_perm.
Qed.

End Facts.
End TaskQueueFacts.


(** ** The dispatch core: invariants of the transition system *)

Module EngineFacts.
Import Engine TaskQueueFacts.

(** *** Counting *)

Section Counting.
Context {A : Type}.
Implicit Types (P : A -> bool) (l : list A).

Lemma tally_nil P : tally P [] = 0%nat.
Proof. done. Qed.

Lemma tally_cons P x l : tally P (x :: l) = (bit (P x) + tally P l)%nat.
Proof.
  unfold tally. destruct (P x) eqn:Hx.
  - by rewrite filter_cons_True.
  - rewrite filter_cons_False; [done|]. by rewrite Hx.
Qed.

Lemma tally_app P l l' : tally P (l ++ l') = (tally P l + tally P l')%nat.
Proof. unfold tally. by rewrite filter_app, length_app. Qed.

Lemma tally_perm P l l' : l ≡ₚ l' -> tally P l = tally P l'.
Proof. intros H. unfold tally. by rewrite H. Qed.

End Counting.

Section Threads.
Context {A B : Type}.
Implicit Types (P : B -> bool) (f : A -> list B) (l : list A).

(** Replacing one thread of the pool replaces what it has in hand. *)
Lemma bind_insert_perm f l i x y :
  l !! i = Some x -> (<[i := y]> l ≫= f) ++ f x ≡ₚ (l ≫= f) ++ f y.
Proof.
  revert i. induction l as [|z l IH]; intros [|i] H; csimpl in *; simplify_eq.
  - solve_Permutation.
  - rewrite <- !(assoc_L (++)), (IH i H). done.
Qed.

Lemma tally_bind_insert P f l i x y :
  l !! i = Some x ->
  (tally P (<[i := y]> l ≫= f) + tally P (f x) = tally P (l ≫= f) + tally P (f y))%nat.
Proof.
  intros H. rewrite <- !tally_app. apply tally_perm. by apply bind_insert_perm.
Qed.

Lemma bind_snoc_nil f l x : f x = [] -> (l ++ [x]) ≫= f = l ≫= f.
Proof. intros H. rewrite bind_app. csimpl. by rewrite H, !app_nil_r. Qed.

Lemma Forall_bind_insert (Q : B -> Prop) f l i x y :
  l !! i = Some x ->
  Forall Q (l ≫= f) -> Forall Q (f y) -> Forall Q (<[i := y]> l ≫= f).
Proof.
  intros H Hl Hy.
  assert (Forall Q ((<[i := y]> l ≫= f) ++ f x)) as Hall.
  { rewrite (bind_insert_perm f l i x y H). by apply Forall_app. }
  by apply Forall_app in Hall as [? _].
Qed.

Lemma Forall_bind_lookup (Q : B -> Prop) f l i x :
  l !! i = Some x -> Forall Q (l ≫= f) -> Forall Q (f x).
Proof.
  intros H Hl. apply Forall_forall. intros z Hz.
  rewrite Forall_forall in Hl. apply Hl.
  apply list_elem_of_bind. exists x. split; [done|]. by eapply list_elem_of_lookup_2.
Qed.

End Threads.

Section Invariant.
Context {Payload : Type}.
Variable transient : TypeKey -> bool.
Variable local_skips_store : bool.

#[local] Abbreviation thread_step :=
  (thread_step (Payload := Payload) transient local_skips_store).
#[local] Abbreviation step := (step (Payload := Payload) transient local_skips_store).
#[local] Abbreviation run := (run (Payload := Payload) transient local_skips_store).
#[local] Abbreviation serial_tests :=
  (serial_tests (Payload := Payload) transient local_skips_store).

Implicit Types (σ : State Payload) (th : Thread Payload) (t : Task Payload)
               (G : TypeKey) (R : Reaction).

(** *** Queue and SyncScheduler bookkeeping *)

Lemma tally_push (P : Task Payload -> bool) t q :
  tally P (queue_tasks (push t q)) = (bit (P t) + tally P (queue_tasks q))%nat.
Proof. by rewrite (tally_perm _ _ _ (push_tasks t q)), tally_cons. Qed.

Lemma tally_pop (P : Task Payload -> bool) q t q' :
  pop q = Some (t, q') ->
  tally P (queue_tasks q) = (bit (P t) + tally P (queue_tasks q'))%nat.
Proof. intros H. by rewrite (tally_perm _ _ _ (pop_tasks _ _ _ H)), tally_cons. Qed.

(** Replacing the entry of group G replaces its pending tasks. *)
Lemma parked_insert (m : gmap TypeKey (SyncGroup Payload)) G (sg : SyncGroup Payload) :
  parked_tasks (<[G := sg]> m) ++ pending (default idle_group (m !! G))
  ≡ₚ pending sg ++ parked_tasks m.
Proof.
  unfold parked_tasks.
  destruct (m !! G) as [old|] eqn:HG; simpl.
  - rewrite <- insert_delete_eq.
    rewrite map_to_list_insert by apply lookup_delete_eq.
    rewrite <- (map_to_list_delete m G old HG).
    rewrite !bind_cons. simpl. solve_Permutation.
  - rewrite map_to_list_insert by done.
    rewrite bind_cons. simpl. by rewrite app_nil_r.
Qed.

Lemma tally_parked_insert (P : Task Payload -> bool) σ G (sg : SyncGroup Payload) :
  (tally P (parked_tasks (<[G := sg]> (syncs σ))) + tally P (pending (sync_of σ G))
   = tally P (pending sg) + tally P (parked_tasks (syncs σ)))%nat.
Proof. rewrite <- !tally_app. apply tally_perm, parked_insert. Qed.

Lemma Forall_pending (Q : Task Payload -> Prop) σ G :
  Forall Q (parked_tasks (syncs σ)) -> Forall Q (pending (sync_of σ G)).
Proof.
  intros H. unfold sync_of. destruct (syncs σ !! G) as [sg|] eqn:HG; [|by constructor].
  simpl. apply Forall_forall. intros x Hx. rewrite Forall_forall in H. apply H.
  unfold parked_tasks. apply list_elem_of_bind. exists (G, sg).
  split; [done|]. by apply elem_of_map_to_list.
Qed.

Lemma Forall_parked_insert (Q : Task Payload -> Prop) σ G (sg : SyncGroup Payload) :
  Forall Q (parked_tasks (syncs σ)) -> Forall Q (pending sg) ->
  Forall Q (parked_tasks (<[G := sg]> (syncs σ))).
Proof.
  intros H Hsg.
  assert (Forall Q (parked_tasks (<[G := sg]> (syncs σ)) ++ pending (sync_of σ G))) as Hall.
  { unfold sync_of. rewrite parked_insert. by apply Forall_app. }
  by apply Forall_app in Hall as [? _].
Qed.

Lemma active_of_insert σ σ0 i j (v : Z) :
  active_of (with_active (<[i := v]> (active σ)) σ0) j
  = if decide (i = j) then v else active_of σ j.
Proof.
  unfold active_of. simpl. case_decide as H.
  - subst. by rewrite lookup_insert_eq.
  - by rewrite lookup_insert_ne.
Qed.

(** *** One step of one thread, case by case *)

Ltac step_cases H :=
  unfold Engine.thread_step, consult, resumption, admission, release, enqueue,
         incr_active, decr_active in H;
  repeat (cbv beta iota zeta in H;
    match type of H with
    | context [match pc ?th with _ => _ end] => destruct (pc th) eqn:?
    | context [match mode ?th with _ => _ end] => destruct (mode th) eqn:?
    | context [match todo ?th with _ => _ end] => destruct (todo th) eqn:?
    | context [match emits ?th with _ => _ end] => destruct (emits th) as [|[??]?] eqn:?
    | context [match pop ?q with _ => _ end] => destruct (pop q) as [[??]|] eqn:?
    | context [if is_live ?s ?R then _ else _] => destruct (is_live s R) eqn:?
    | context [match gather_with ?tr ?i ?st ?W ?c with _ => _ end] =>
      destruct (gather_with tr i st W c) as [[??]|] eqn:?
    | context [match task_group ?t with _ => _ end] => destruct (task_group t) eqn:?
    | context [if bool_decide ?P then _ else _] => destruct (bool_decide P) eqn:?
    | context [if running ?sg then _ else _] => destruct (running sg) eqn:?
    | context [match pending ?sg with _ => _ end] => destruct (pending sg) eqn:?
    | context [if stores ?b ?m then _ else _] => destruct (stores b m) eqn:?
    | context [if ?a && ?b then _ else _] => destruct (a && b) eqn:?
    | context [match ?Ws with [] => _ | _ :: _ => _ end] => is_var Ws; destruct Ws
    end);
  cbv beta iota zeta in H; injection H as <- <-.

Ltac use_pc :=
  repeat match goal with
  | E : pc ?th = _ |- context [pc ?th] => rewrite E
  | E : todo ?th = _ |- context [todo ?th] => rewrite E
  | E : mode ?th = _ |- context [mode ?th] => rewrite E
  | E : emits ?th = _ |- context [emits ?th] => rewrite E
  end.

(** A step of a thread leaves the OptionsTable, the Registry, the timers
    and the pool itself as they are. *)
Lemma thread_step_frame th σ th' σ' :
  thread_step th σ = (th', σ') ->
  reactions σ' = reactions σ /\ next_id σ' = next_id σ
  /\ triggered_by σ' = triggered_by σ /\ timers σ' = timers σ
  /\ threads σ' = threads σ.
Proof. intros H. step_cases H; done. Qed.

(** The reactions a thread refers to after a step are those it referred to
    before, or candidates that the Registry gave it. *)
Lemma thread_step_held th σ th' σ' R :
  thread_step th σ = (th', σ') ->
  R ∈ held_reactions th' ->
  R ∈ held_reactions th \/ registered σ R.
Proof.
  intros H. step_cases H; unfold held_reactions, registered; simpl; use_pc;
    rewrite ?elem_of_app, ?elem_of_cons, ?elem_of_nil; intuition eauto.
Qed.

(** The tasks after a step are those before it, or a new task of a reaction
    that the thread was dispatching. *)
Lemma thread_step_tasks (Q : Task Payload -> Prop) th σ th' σ' :
  thread_step th σ = (th', σ') ->
  (forall R bundle s, R ∈ held_reactions th ->
     Q {| reaction := R; args := bundle; submit_seq := s |}) ->
  Forall Q (queue_tasks (queue σ) ++ parked_tasks (syncs σ) ++ hand_tasks th) ->
  Forall Q (queue_tasks (queue σ') ++ parked_tasks (syncs σ') ++ hand_tasks th').
Proof.
  intros H Hnew. rewrite !Forall_app. intros (Hq & Hp & Hh).
  pose proof (fun G => Forall_pending Q σ G Hp) as Hpend.
  step_cases H; unfold hand_tasks, held_reactions in *; simpl; revert Hh Hnew; use_pc;
    intros Hh Hnew.
  all: repeat match goal with
       | E : pop _ = Some _ |- _ => rewrite (pop_tasks _ _ _ E) in Hq
       | E : pending (sync_of _ ?G) = _ |- _ => specialize (Hpend G); rewrite E in Hpend
       end.
  all: rewrite ?push_tasks.
  all: repeat match goal with
       | E : Forall _ (_ :: _) |- _ => apply Forall_cons in E as [? ?]
       end.
  all: repeat first [assumption | apply Hpend | split | apply Forall_parked_insert
                     | apply Forall_nil | apply Forall_cons | apply Forall_app];
       simpl; try done.
  all: apply Hnew; set_solver.
Qed.

Ltac parked_cases P :=
  repeat match goal with
  | |- context [parked_tasks (<[?G := ?sg]> (syncs ?s))] =>
    let H := fresh "Hpark" in
    pose proof (tally_parked_insert P s G sg) as H; simpl in H; revert H;
    generalize (tally P (parked_tasks (<[G := sg]> (syncs s)))); intros ? H
  end;
  repeat match goal with
  | E : pending _ = _, H : context [pending _] |- _ => rewrite E in H
  | E : pop _ = Some _ |- _ => rewrite (tally_pop P _ _ _ E); clear E
  end.

Ltac tally_simpl :=
  rewrite ?tally_push, ?tally_app, ?tally_cons, ?tally_nil in *.

Lemma bit_has_id t : bit (has_id (task_id t) t) = 1%nat.
Proof. unfold has_id. by rewrite bool_decide_eq_true_2. Qed.

Lemma bit_has_id_ne j t : task_id t <> j -> bit (has_id j t) = 0%nat.
Proof. intros H. unfold has_id. by rewrite bool_decide_eq_false_2. Qed.

(** [active] moves with the tasks it accounts for: the difference between
    the counter of a reaction and the number of its tasks that are queued,
    parked or counted in the hand of the thread is the same before and after
    a step. *)
Lemma thread_step_active j th σ th' σ' :
  thread_step th σ = (th', σ') ->
  (active_of σ' j
   + Z.of_nat (tally (has_id j) (queue_tasks (queue σ))
               + tally (has_id j) (parked_tasks (syncs σ))
               + tally (has_id j) (counted_hand th))
   = active_of σ j
     + Z.of_nat (tally (has_id j) (queue_tasks (queue σ'))
                 + tally (has_id j) (parked_tasks (syncs σ'))
                 + tally (has_id j) (counted_hand th')))%Z.
Proof.
  intros H. step_cases H; unfold counted_hand; simpl; use_pc;
    rewrite ?active_of_insert; parked_cases (has_id (Payload := Payload) j); tally_simpl;
    try (case_decide as Hd; [subst j; rewrite ?bit_has_id|rewrite ?bit_has_id_ne by done]);
    unfold active_of; simpl; try lia.
Qed.

Lemma default_insert (m : gmap TypeKey (SyncGroup Payload)) G0 G (sg : SyncGroup Payload) :
  default idle_group (<[G0 := sg]> m !! G)
  = if decide (G0 = G) then sg else default idle_group (m !! G).
Proof.
  case_decide as H; [subst; by rewrite lookup_insert_eq|by rewrite lookup_insert_ne].
Qed.

Lemma bit_in_group G t : task_group t = Some G -> bit (in_group G t) = 1%nat.
Proof. intros H. unfold in_group. by rewrite bool_decide_eq_true_2. Qed.

Lemma bit_in_group_ne G G0 t :
  task_group t = Some G0 -> G0 <> G -> bit (in_group G t) = 0%nat.
Proof.
  intros H Hne. unfold in_group. rewrite bool_decide_eq_false_2; [done|]. congruence.
Qed.

Lemma bit_in_group_none G t : task_group t = None -> bit (in_group G t) = 0%nat.
Proof. intros H. unfold in_group. rewrite bool_decide_eq_false_2; [done|]. congruence. Qed.

Ltac group_cases G :=
  unfold sync_of in *; simpl in *; rewrite ?default_insert;
  repeat match goal with
  | E : bool_decide _ = true |- _ => apply bool_decide_eq_true in E
  | E : bool_decide _ = false |- _ => apply bool_decide_eq_false in E
  end;
  try (case_decide; [subst G|]);
  repeat match goal with
  | E : task_group ?t = Some ?G0 |- context [in_group ?G0 ?t] =>
    rewrite (bit_in_group G0 t E)
  | E : task_group ?t = Some ?G0, N : ?G0 <> ?G1 |- context [in_group ?G1 ?t] =>
    rewrite (bit_in_group_ne G1 G0 t E N)
  | E : task_group ?t = None |- context [in_group ?G1 ?t] =>
    rewrite (bit_in_group_none G1 t E)
  | E : running _ = _ |- _ => rewrite E in *; clear E
  | E : heir _ = _ |- _ => rewrite E in *; clear E
  | E : pending _ = _ |- _ => rewrite E in *; clear E
  end; simpl in *.

(** Sync, one step: the tasks that hold group G (in the hand of this
    thread or of the others) and the task the group was handed to are at
    most one, and only under the group's flag. *)
Lemma thread_step_sync G th σ th' σ' (others : nat) :
  thread_step th σ = (th', σ') ->
  (tally (in_group G) (holding_hand th) + others + handed G σ
   <= bit (group_running σ G))%nat ->
  (tally (in_group G) (holding_hand th') + others + handed G σ'
   <= bit (group_running σ' G))%nat.
Proof.
  intros H. step_cases H; unfold holding_hand, handed, group_running; simpl; use_pc;
    tally_simpl; try done; group_cases G; try lia.
  destruct (heir _), (running _); simpl; lia.
Qed.

(** The flag of a group is cleared by the release of a task of the group
    with nothing pending, and by no other step. *)
Lemma thread_step_flag G th σ th' σ' :
  thread_step th σ = (th', σ') ->
  group_running σ G = true ->
  group_running σ' G = false ->
  exists t, pc th = Decremented t /\ task_group t = Some G
            /\ pending (sync_of σ G) = [].
Proof.
  intros H. step_cases H; unfold group_running; simpl; try congruence;
    group_cases G; try congruence.
  intros _ _. by eexists.
Qed.

(** A thread starts a callback of group G only in a step that makes it a
    holder of the group. *)
Lemma thread_step_starts G th σ th' σ' :
  thread_step th σ = (th', σ') ->
  (tally (in_group G) (running_hand th) < tally (in_group G) (running_hand th'))%nat ->
  tally (in_group G) (holding_hand th') = S (tally (in_group G) (holding_hand th)).
Proof.
  intros H. step_cases H; unfold running_hand, holding_hand; simpl; use_pc;
    tally_simpl; try lia.
  all: destruct (in_group G t); simpl; lia.
Qed.

Lemma bit_is_reaction R : bit (is_reaction (reaction_id R) R) = 1%nat.
Proof. unfold is_reaction. by rewrite bool_decide_eq_true_2. Qed.

Lemma bit_is_reaction_ne j R : reaction_id R <> j -> bit (is_reaction j R) = 0%nat.
Proof. intros H. unfold is_reaction. by rewrite bool_decide_eq_false_2. Qed.

(** Single, one step: as long as a thread takes the test of step 3a on
    reaction [j] only when no other thread is between its test and its
    increment, the counter of a Single reaction plus the number of
    dispatches that have passed the test and not incremented yet stays at
    most one. *)
Lemma thread_step_window j th σ th' σ' (others : nat) :
  thread_step th σ = (th', σ') ->
  (0 <= active_of σ j)%Z ->
  (forall R, pc th = Live R -> reaction_id R = j ->
             single (options R) = true /\ others = 0%nat) ->
  (active_of σ j + Z.of_nat (tally (is_reaction j) (window_hand th) + others) <= 1)%Z ->
  (active_of σ' j + Z.of_nat (tally (is_reaction j) (window_hand th') + others) <= 1)%Z.
Proof.
  intros H. step_cases H; unfold window_hand; simpl; use_pc; intros Hpos Htest;
    rewrite ?active_of_insert; tally_simpl; unfold task_id in *;
    try (case_decide as Hd;
         [subst j; rewrite ?bit_is_reaction|rewrite ?bit_is_reaction_ne by done]);
    unfold active_of in *; simpl in *; try lia.
  destruct (decide (reaction_id R = j)) as [Hj|Hj].
  - destruct (Htest R eq_refl Hj) as [Hsingle ->]. subst j.
    rewrite Hsingle in Heqb. apply bool_decide_eq_false in Heqb.
    rewrite bit_is_reaction. lia.
  - rewrite bit_is_reaction_ne by done. lia.
Qed.

(** *** The invariant *)

Lemma wf_state_same σ σ' :
  reactions σ' = reactions σ -> next_id σ' = next_id σ ->
  triggered_by σ' = triggered_by σ -> timers σ' = timers σ ->
  threads σ' = threads σ -> queue σ' = queue σ -> syncs σ' = syncs σ ->
  active σ' = active σ ->
  wf_state σ -> wf_state σ'.
Proof.
  intros E1 E2 E3 E4 E5 E6 E7 E8 [H1 H2 H3 H4 H5 H6].
  constructor;
    unfold registered, candidates_of, all_tasks, counted_tasks, active_of, holders,
           handed, group_running, sync_of in *;
    rewrite ?E1, ?E2, ?E3, ?E4, ?E5, ?E6, ?E7, ?E8; done.
Qed.

Lemma wf_thread_step i th σ th' σ' :
  wf_state σ -> threads σ !! i = Some th -> thread_step th σ = (th', σ') ->
  wf_state (with_threads (<[i := th']> (threads σ')) σ').
Proof.
  intros [H1 H2 H3 H4 H5 H6] Hi Hstep.
  destruct (thread_step_frame _ _ _ _ Hstep) as (E1 & E2 & E3 & E4 & E5).
  assert (forall R, R ∈ held_reactions th -> reactions σ !! reaction_id R = Some R)
    as Hheld.
  { intros R HR. apply H3. apply list_elem_of_bind. exists th.
    split; [done|]. by eapply list_elem_of_lookup_2. }
  constructor; simpl; rewrite ?E1, ?E2, ?E5.
  - done.
  - intros R HR. apply H2. unfold registered, candidates_of in *. simpl in HR.
    by rewrite E3, E4 in HR.
  - apply Forall_forall. eapply Forall_bind_insert; [done|by apply Forall_forall|].
    apply Forall_forall. intros R HR.
    destruct (thread_step_held _ _ _ _ _ Hstep HR) as [?|?]; eauto.
  - apply Forall_forall. unfold all_tasks. simpl. rewrite ?E5.
    apply Forall_forall in H4. unfold all_tasks in H4.
    rewrite !Forall_app in H4. destruct H4 as (Hq & Hp & Hh).
    pose proof (thread_step_tasks
                  (fun t => reactions σ !! task_id t = Some (reaction t))
                  _ _ _ _ Hstep) as Hnew.
    rewrite !Forall_app in Hnew. destruct Hnew as (Hq' & Hp' & Hh').
    + intros R bundle s HR. unfold task_id. simpl. by apply Hheld.
    + repeat split; try done. by eapply Forall_bind_lookup.
    + rewrite !Forall_app. repeat split; try done.
      by eapply Forall_bind_insert.
  - intros j. unfold counted_tasks. simpl. rewrite ?E5.
    pose proof (thread_step_active j _ _ _ _ Hstep) as Hact.
    pose proof (tally_bind_insert (has_id j) counted_hand _ _ _ th' Hi) as Hins.
    specialize (H5 j). unfold counted_tasks in H5.
    rewrite !tally_app in *.
    change (active_of (with_threads (<[i := th']> (threads σ)) σ') j)
      with (active_of σ' j).
    lia.
  - intros G. unfold holders. simpl. rewrite ?E5.
    pose proof (tally_bind_insert (in_group G) holding_hand _ _ _ th' Hi) as Hins.
    specialize (H6 G). unfold holders in H6.
    pose proof (thread_step_sync G _ _ _ _
                  (tally (in_group G) (threads σ ≫= holding_hand)
                   - tally (in_group G) (holding_hand th)) Hstep) as Hsync.
    assert (tally (in_group G) (holding_hand th)
            <= tally (in_group G) (threads σ ≫= holding_hand))%nat as Hle.
    { rewrite <- (take_drop_middle _ _ _ Hi), bind_app, tally_app. csimpl.
      rewrite tally_app. lia. }
    change (handed G (with_threads (<[i := th']> (threads σ)) σ')) with (handed G σ').
    change (group_running (with_threads (<[i := th']> (threads σ)) σ') G)
      with (group_running σ' G).
    lia.
Qed.

Lemma wf_spawn th σ :
  wf_state σ -> pc th = Ready -> (forall R, R ∈ todo th -> registered σ R) ->
  wf_state (spawn th σ).
Proof.
  intros [H1 H2 H3 H4 H5 H6] Hpc Htodo.
  constructor; simpl; try done.
  - intros R HR. rewrite bind_app in HR. apply elem_of_app in HR as [HR|HR]; [eauto|].
    csimpl in HR. rewrite app_nil_r in HR. unfold held_reactions in HR.
    rewrite Hpc, app_nil_r in HR. eauto.
  - unfold all_tasks. simpl. rewrite (bind_snoc_nil hand_tasks); [done|].
    unfold hand_tasks. by rewrite Hpc.
  - unfold counted_tasks. simpl. rewrite (bind_snoc_nil counted_hand); [done|].
    unfold counted_hand. by rewrite Hpc.
  - unfold holders. simpl. rewrite (bind_snoc_nil holding_hand); [done|].
    unfold holding_hand. by rewrite Hpc.
Qed.

Lemma wf_create b σ : wf_state σ -> wf_state (create_reaction b σ).2.
Proof.
  intros [H1 H2 H3 H4 H5 H6]. unfold create_reaction. simpl.
  set (Rn := {| reaction_id := next_id σ; owner := b_owner b;
                triggers := b_triggers b; withs := b_withs b;
                invoker := b_invoker b;
                options := b_options b; identifier := b_identifier b |}).
  assert (forall R, reactions σ !! reaction_id R = Some R ->
                    <[next_id σ := Rn]> (reactions σ) !! reaction_id R = Some R) as Hkeep.
  { intros R HR. destruct (H1 _ _ HR) as [_ Hlt].
    rewrite lookup_insert_ne by lia. done. }
  constructor; simpl.
  - intros i R. destruct (decide (next_id σ = i)) as [<-|Hne].
    + rewrite lookup_insert_eq. intros [= <-]. simpl. lia.
    + rewrite lookup_insert_ne by done. intros HR.
      destruct (H1 _ _ HR). lia.
  - intros R HR. apply Hkeep. by apply H2.
  - intros R HR. apply Hkeep. by apply H3.
  - intros t Ht. apply Hkeep. by apply H4.
  - apply H5.
  - apply H6.
Qed.

Lemma registry_bind_lists R (Ts : list TypeKey) :
  forall (m : gmap TypeKey (list Reaction)) (K : TypeKey) (R' : Reaction),
    R' ∈ default [] (foldl (fun m T => <[T := default [] (m !! T) ++ [R]]> m) m Ts !! K) ->
    R' ∈ default [] (m !! K) \/ R' = R.
Proof.
  induction Ts as [|T Ts IH]; intros m K R' H; simpl in H; [by left|].
  apply IH in H as [H|H]; [|by right].
  destruct (decide (T = K)) as [->|Hne].
  - rewrite lookup_insert_eq in H. simpl in H.
    apply elem_of_app in H as [H|H]; [by left|].
    apply list_elem_of_singleton in H. by right.
  - rewrite lookup_insert_ne in H by done. by left.
Qed.

Lemma registry_bind_registered R σ R' :
  registered (registry_bind R σ) R' -> registered σ R' \/ R' = R.
Proof.
  unfold registered, candidates_of, registry_bind. simpl.
  intros [[K H]|H].
  - apply registry_bind_lists in H as [H|H]; [|by right]. left. left. by exists K.
  - apply elem_of_app in H as [H|H]; [left; by right|].
    apply list_elem_of_fmap in H as (K & -> & _). by right.
Qed.

Lemma wf_registry_bind R σ :
  wf_state σ -> reactions σ !! reaction_id R = Some R -> wf_state (registry_bind R σ).
Proof.
  intros [H1 H2 H3 H4 H5 H6] HR.
  constructor; try done.
  intros R' [HR'| ->]%registry_bind_registered; [by apply H2|done].
Qed.

Lemma wf_emit scope K p σ : wf_state σ -> wf_state (emit scope K p σ).
Proof.
  intros Hwf. destruct scope; simpl.
  - apply wf_spawn; [done..|]. intros R HR. by apply elem_of_nil in HR.
  - apply wf_spawn; [done..|]. intros R HR. by apply elem_of_nil in HR.
  - destruct (started σ).
    + apply wf_spawn; [done..|]. intros R HR. by apply elem_of_nil in HR.
    + by apply (wf_state_same σ).
  - by apply (wf_state_same σ).
  - by apply (wf_state_same σ).
  - by apply (wf_state_same σ).
Qed.

Lemma wf_start σ : wf_state σ -> wf_state (start σ).
Proof.
  intros Hwf. unfold start. destruct (started σ); [done|].
  apply wf_spawn; [by apply (wf_state_same σ)|done|].
  intros R HR. by apply elem_of_nil in HR.
Qed.

Lemma wf_every_fire i σ : wf_state σ -> wf_state (every_fire i σ).
Proof.
  intros Hwf. unfold every_fire. destruct (timers σ !! i) as [R|] eqn:Hi; [|done].
  apply wf_spawn; [done..|]. simpl. intros R' ->%list_elem_of_singleton.
  right. by eapply list_elem_of_lookup_2.
Qed.

Lemma wf_step σ (l : Label Payload) : wf_state σ -> wf_state (step σ l).
Proof.
  intros Hwf. destruct l as [b|rid|rid|o|scope K p| |i| |i]; simpl.
  - change (wf_state (registry_bind (create_reaction b σ).1 (create_reaction b σ).2)).
    apply wf_registry_bind; [by apply wf_create|].
    simpl. by rewrite lookup_insert_eq.
  - by apply (wf_state_same σ).
  - by apply (wf_state_same σ).
  - by apply (wf_state_same σ).
  - by apply wf_emit.
  - by apply wf_start.
  - by apply wf_every_fire.
  - apply wf_spawn; [done..|]. intros R HR. by apply elem_of_nil in HR.
  - destruct (threads σ !! i) as [th|] eqn:Hi; [|done].
    destruct (thread_step th σ) as [th' σ'] eqn:Hstep.
    by eapply wf_thread_step.
Qed.

Lemma wf_init : wf_state (@init Payload).
Proof.
  constructor.
  - intros i R H. simpl in H. by rewrite lookup_empty in H.
  - intros R [[K H]|H]; [|by apply elem_of_nil in H].
    unfold candidates_of in H. simpl in H. rewrite lookup_empty in H.
    by apply elem_of_nil in H.
  - intros R H. by apply elem_of_nil in H.
  - intros t H. unfold all_tasks, parked_tasks in H. simpl in H.
    rewrite map_to_list_empty in H. by apply elem_of_nil in H.
  - intros i. unfold counted_tasks, parked_tasks, active_of. simpl.
    by rewrite map_to_list_empty, lookup_empty.
  - intros G. unfold group_running, handed, holders, sync_of. simpl.
    rewrite lookup_empty. simpl. done.
Qed.

Lemma wf_steps (ls : list (Label Payload)) σ :
  wf_state σ -> wf_state (foldl step σ ls).
Proof.
  revert σ. induction ls as [|l ls IH]; intros σ Hwf; simpl; [done|].
  apply IH. by apply wf_step.
Qed.

Lemma wf_run (ls : list (Label Payload)) : wf_state (run ls).
Proof. apply wf_steps, wf_init. Qed.

(** Reactions are immutable after creation: a step leaves every entry of
    the OptionsTable as it is. *)
Lemma step_table σ (lbl : Label Payload) R :
  wf_state σ ->
  reactions σ !! reaction_id R = Some R ->
  reactions (step σ lbl) !! reaction_id R = Some R.
Proof.
  intros Hwf HR.
  destruct (wf_table _ Hwf _ _ HR) as [_ Hlt].
  destruct lbl as [b|rid|rid|o|scope K p| |i| |i]; simpl; try done.
  - rewrite lookup_insert_ne by lia. done.
  - destruct scope; simpl; try done. by destruct (started σ).
  - unfold start. by destruct (started σ).
  - unfold every_fire. by destruct (timers σ !! i).
  - destruct (threads σ !! i) as [th|] eqn:Hi; [|done].
    destruct (thread_step th σ) as [th' σ'] eqn:Hstep. simpl.
    by destruct (thread_step_frame _ _ _ _ Hstep) as (-> & _).
Qed.

Lemma steps_table (ls : list (Label Payload)) σ R :
  wf_state σ ->
  reactions σ !! reaction_id R = Some R ->
  reactions (foldl step σ ls) !! reaction_id R = Some R.
Proof.
  revert σ. induction ls as [|l ls IH]; intros σ Hwf HR; simpl; [done|].
  apply IH; [by apply wf_step|by apply step_table].
Qed.

(** What a label other than a thread's step leaves alone. *)
Lemma step_other_frame σ (lbl : Label Payload) :
  (forall i, lbl <> LThread i) ->
  active (step σ lbl) = active σ /\ syncs (step σ lbl) = syncs σ
  /\ queue (step σ lbl) = queue σ
  /\ exists ths, threads (step σ lbl) = threads σ ++ ths
                 /\ Forall (fun th => pc th = Ready) ths.
Proof.
  intros Hl.
  assert (forall th, pc th = Ready ->
            active (spawn th σ) = active σ /\ syncs (spawn th σ) = syncs σ
            /\ queue (spawn th σ) = queue σ
            /\ exists ths, threads (spawn th σ) = threads σ ++ ths
                           /\ Forall (fun th => pc th = Ready) ths) as Hspawn.
  { intros th Hth. repeat split; try done. exists [th]. split; [done|].
    by repeat constructor. }
  assert (active σ = active σ /\ syncs σ = syncs σ /\ queue σ = queue σ
          /\ exists ths, threads σ = threads σ ++ ths
                         /\ Forall (fun th => pc th = Ready) ths) as Hsame.
  { repeat split; try done. exists []. by rewrite app_nil_r. }
  destruct lbl as [b|rid|rid|o|scope K p| |i| |i]; simpl; try done.
  - destruct scope; simpl; try done; try (by apply Hspawn).
    destruct (started σ); [by apply Hspawn|done].
  - unfold start. destruct (started σ); [done|].
    repeat split; try done. eexists [_]. split; [done|]. by repeat constructor.
  - unfold every_fire. destruct (timers σ !! i); [by apply Hspawn|done].
  - by apply Hspawn.
  - by destruct (Hl i).
Qed.

Lemma bind_ready_nil {B : Type} (f : Thread Payload -> list B) (ths : list (Thread Payload)) :
  (forall th, pc th = Ready -> f th = []) ->
  Forall (fun th => pc th = Ready) ths -> ths ≫= f = [].
Proof.
  intros Hf. induction 1 as [|th ths Hth _ IH]; [done|].
  csimpl. by rewrite (Hf th Hth), IH.
Qed.

Lemma bind_insert_same {A B : Type} (f : A -> list B) (l : list A) i x y :
  l !! i = Some x -> f y = f x -> <[i := y]> l ≫= f = l ≫= f.
Proof.
  revert i. induction l as [|z l IH]; intros [|i] H Hf; csimpl in *; simplify_eq.
  - by rewrite Hf.
  - by rewrite (IH i).
Qed.

(** *** Sync *)

Lemma bit_le (b : bool) : (bit b <= 1)%nat.
Proof. destruct b; simpl; lia. Qed.

Lemma running_le_holders G σ : (running_in G σ <= holders G σ)%nat.
Proof.
  unfold running_in, holders.
  induction (threads σ) as [|th ths IH]; [done|].
  csimpl. rewrite !tally_app.
  assert (tally (in_group G) (running_hand th)
          <= tally (in_group G) (holding_hand th))%nat as Hth.
  { unfold running_hand, holding_hand.
    destruct (pc th); rewrite ?tally_cons, ?tally_nil; lia. }
  lia.
Qed.

(** A thread that starts a callback of group G while the flag of G is set
    resumes the task that the release protocol handed the group to. *)
Lemma thread_step_resumes G th σ th' σ' :
  thread_step th σ = (th', σ') ->
  (tally (in_group G) (running_hand th) < tally (in_group G) (running_hand th'))%nat ->
  group_running σ G = true ->
  exists t, pc th = Checked t /\ task_group t = Some G
            /\ heir (sync_of σ G) = Some (submit_seq t).
Proof.
  intros H. step_cases H; unfold running_hand, group_running; simpl; use_pc;
    tally_simpl; try lia; intros Hlt Hflag.
  all: try (rewrite (bit_in_group_none G _ ltac:(eassumption)) in Hlt; lia).
  all: destruct (decide (c = G)) as [->|Hne];
    [|rewrite (bit_in_group_ne G c _ ltac:(eassumption) Hne) in Hlt; lia].
  all: try congruence.
  all: eexists; split; [done|]; split; [done|].
  all: match goal with
       | E : bool_decide _ = true |- _ => by apply bool_decide_eq_true in E
       end.
Qed.

(** C2: for every Sync group G, in every reachable state at most one task
    with sync_group = G is in the Running state, and none unless the group's
    running flag is set.  While the flag is set, the admission protocol
    admits no task of G (it parks it on the group's pending queue); a step
    that starts a task of G then is the resumption of the task that the
    release protocol handed the group to, and is taken only when no task
    holds the group any more, the holder having completed and released; and
    the flag is cleared only by the release of a task of G that has
    completed, with nothing pending. *)
Theorem sync_group_at_most_one_running :
  forall (ls : list (Label Payload)) (G : TypeKey),
    let σ := run ls in
    (running_in G σ <= 1)%nat
    /\ (group_running σ G = false -> running_in G σ = 0%nat)
    /\ (group_running σ G = true ->
        (forall t, task_group t = Some G ->
           admission t σ
           = (false,
              with_syncs (<[G := {| running := true;
                                    pending := pending (sync_of σ G) ++ [t];
                                    heir := heir (sync_of σ G) |}]> (syncs σ)) σ))
        /\ (forall lbl : Label Payload,
              (running_in G σ < running_in G (step σ lbl))%nat ->
              holders G σ = 0%nat
              /\ exists i th t,
                   lbl = LThread i /\ threads σ !! i = Some th /\ pc th = Checked t
                   /\ task_group t = Some G
                   /\ heir (sync_of σ G) = Some (submit_seq t))
        /\ (forall lbl : Label Payload,
              group_running (step σ lbl) G = false ->
              exists i th t,
                lbl = LThread i /\ threads σ !! i = Some th
                /\ pc th = Decremented t /\ task_group t = Some G
                /\ pending (sync_of σ G) = [])).
Proof.
  intros ls G σ.
  pose proof (wf_run ls) as Hwf. fold σ in Hwf.
  pose proof (wf_sync _ Hwf G) as Hsync.
  pose proof (running_le_holders G σ) as Hle.
  split; [pose proof (bit_le (group_running σ G)); lia|].
  split; [intros Hflag; rewrite Hflag in Hsync; simpl in Hsync; lia|].
  intros Hflag. split; [|split].
  - intros t Ht. unfold admission. rewrite Ht.
    unfold group_running in Hflag. by rewrite Hflag.
  - intros lbl Hlt.
    assert (exists i, lbl = LThread i) as [i ->].
    { destruct lbl as [b|rid|rid|o|scope K p| |i| |i]; eauto.
      all: exfalso.
      all: match type of Hlt with
           | context [step _ ?l] =>
             destruct (step_other_frame σ l ltac:(done)) as (_ & _ & _ & ths & Hths & Hready)
           end.
      all: unfold running_in in Hlt; rewrite Hths, bind_app in Hlt.
      all: rewrite (bind_ready_nil running_hand ths) in Hlt; [|..|done].
      all: try (rewrite app_nil_r in Hlt; lia).
      all: intros th Hth; unfold running_hand; by rewrite Hth. }
    simpl in Hlt. destruct (threads σ !! i) as [th|] eqn:Hi; [|lia].
    destruct (thread_step th σ) as [th' σ'] eqn:Hstep.
    destruct (thread_step_frame _ _ _ _ Hstep) as (_ & _ & _ & _ & E5).
    unfold running_in in Hlt. simpl in Hlt. rewrite E5 in Hlt.
    pose proof (tally_bind_insert (in_group G) running_hand _ _ _ th' Hi) as Hins.
    assert (tally (in_group G) (running_hand th)
            < tally (in_group G) (running_hand th'))%nat as Hth by lia.
    pose proof (thread_step_starts G _ _ _ _ Hstep Hth) as Hhold.
    pose proof (wf_sync _ (wf_thread_step _ _ _ _ _ Hwf Hi Hstep) G) as Hsync'.
    unfold holders in Hsync'. simpl in Hsync'. rewrite E5 in Hsync'.
    pose proof (tally_bind_insert (in_group G) holding_hand _ _ _ th' Hi) as Hins'.
    assert (bit (group_running (with_threads (<[i := th']> (threads σ)) σ') G) <= 1)%nat
      as Hbit by apply bit_le.
    split; [unfold holders; lia|].
    destruct (thread_step_resumes G _ _ _ _ Hstep Hth Hflag) as (t & Hpc & Ht & Hheir).
    by exists i, th, t.
  - intros lbl Hclear.
    assert (exists i, lbl = LThread i) as [i ->].
    { destruct lbl as [b|rid|rid|o|scope K p| |i| |i]; eauto.
      all: exfalso.
      all: match type of Hclear with
           | context [step _ ?l] =>
             destruct (step_other_frame σ l ltac:(done)) as (_ & Hs & _)
           end.
      all: unfold group_running, sync_of in *; rewrite Hs in Hclear; congruence. }
    simpl in Hclear. destruct (threads σ !! i) as [th|] eqn:Hi; [|congruence].
    destruct (thread_step th σ) as [th' σ'] eqn:Hstep.
    destruct (thread_step_flag G _ _ _ _ Hstep Hflag Hclear) as (t & Hpc & Ht & Hpend).
    by exists i, th, t.
Qed.

(** *** Single *)

Lemma active_nonneg σ j : wf_state σ -> (0 <= active_of σ j)%Z.
Proof. intros Hwf. rewrite (wf_active _ Hwf). lia. Qed.

(** One step keeps the counter of a Single reaction, plus the dispatches
    between test and increment, at most one, unless the step is an
    overlapping test. *)
Lemma step_window j σ (lbl : Label Payload) :
  wf_state σ ->
  (forall R, reactions σ !! j = Some R -> single (options R) = true) ->
  test_overlaps j σ lbl = false ->
  (active_of σ j + Z.of_nat (window j σ) <= 1)%Z ->
  (active_of (step σ lbl) j + Z.of_nat (window j (step σ lbl)) <= 1)%Z.
Proof.
  intros Hwf Hsingle Hserial HJ.
  assert ((exists i, lbl = LThread i) \/ forall i, lbl <> LThread i) as [[i ->]|Hother].
  { destruct lbl as [b|rid|rid|o|scope K p| |i| |i]; [right; done..|left; by exists i]. }
  - simpl in *. destruct (threads σ !! i) as [th|] eqn:Hi; [|done].
    destruct (thread_step th σ) as [th' σ'] eqn:Hstep.
    destruct (thread_step_frame _ _ _ _ Hstep) as (_ & _ & _ & _ & E5).
    unfold window in *. simpl. rewrite E5.
    change (active_of (with_threads (<[i := th']> (threads σ)) σ') j)
      with (active_of σ' j).
    pose proof (tally_bind_insert (is_reaction j) window_hand _ _ _ th' Hi) as Hins.
    assert (tally (is_reaction j) (window_hand th)
            <= tally (is_reaction j) (threads σ ≫= window_hand))%nat as Hle.
    { rewrite <- (take_drop_middle _ _ _ Hi), bind_app, tally_app. csimpl.
      rewrite tally_app. lia. }
    pose proof (thread_step_window j _ _ _ _
                  (tally (is_reaction j) (threads σ ≫= window_hand)
                   - tally (is_reaction j) (window_hand th))
                  Hstep (active_nonneg _ j Hwf)) as Hwin.
    assert (forall R, pc th = Live R -> reaction_id R = j ->
              single (options R) = true
              /\ (tally (is_reaction j) (threads σ ≫= window_hand)
                  - tally (is_reaction j) (window_hand th) = 0)%nat) as Htest.
    { intros R Hpc Hj. split.
      - apply Hsingle. rewrite <- Hj. apply (wf_held _ Hwf).
        apply list_elem_of_bind. exists th. split; [|by eapply list_elem_of_lookup_2].
        unfold held_reactions. rewrite Hpc. set_solver.
      - assert (is_reaction j R = true) as Hr.
        { unfold is_reaction. by rewrite bool_decide_eq_true_2. }
        rewrite Hpc, Hr in Hserial. simpl in Hserial.
        apply negb_false_iff, Nat.eqb_eq in Hserial. lia. }
    specialize (Hwin Htest). lia.
  - destruct (step_other_frame σ lbl Hother) as (Ha & _ & _ & ths & Hths & Hready).
    unfold window, active_of in *. rewrite Ha, Hths, bind_app, tally_app.
    rewrite (bind_ready_nil window_hand ths); [by rewrite tally_nil, Nat.add_0_r| |done].
    intros th Hth. unfold window_hand. by rewrite Hth.
Qed.

Lemma steps_window j R (ls : list (Label Payload)) :
  forall σ,
    wf_state σ ->
    reactions (foldl step σ ls) !! j = Some R ->
    single (options R) = true ->
    serial_tests j σ ls = true ->
    (active_of σ j + Z.of_nat (window j σ) <= 1)%Z ->
    (active_of (foldl step σ ls) j + Z.of_nat (window j (foldl step σ ls)) <= 1)%Z.
Proof.
  induction ls as [|l ls IH]; intros σ Hwf HR Hsingle Hserial HJ; simpl in *; [done|].
  apply andb_true_iff in Hserial as [Hl Hserial]. apply negb_true_iff in Hl.
  apply IH; try done; [by apply wf_step|].
  apply step_window; try done.
  intros R' HR'.
  destruct (wf_table _ Hwf _ _ HR') as [Hid _].
  assert (reactions (foldl step (step σ l) ls) !! reaction_id R' = Some R') as Hlater.
  { apply steps_table; [by apply wf_step|]. apply step_table; [done|]. by rewrite Hid. }
  rewrite Hid in Hlater. by simplify_eq.
Qed.


End Invariant.
End EngineFacts.

(** ** The theorems at the concrete scenarios *)

Module ScenarioFacts.
Import Engine Scenarios.

(** Scenario 3 (Single drop), the dispatches one after the other: the second
    emit finds [active] at 1 at its test and is dropped there; one task is
    queued. *)
Example single_drop_at_emit_time :
  let σ := run transient false (serial_run ++ steps 1 1) in
  active_of σ 0 = 1%Z /\ pc <$> threads σ = [Ready; Ready]
  /\ length (all_tasks σ) = 1%nat.
Proof. vm_compute. done. Qed.

(** Scenario 6 (priority ordering): LOW, HIGH, NORMAL pop as HIGH, NORMAL, LOW. *)
Example priority_pop_order :
  task_priority <$> drain_all (queue (run transient false priority_run))
  = [HIGH; NORMAL; LOW].
Proof. vm_compute. done. Qed.

(** Scenario 2 (Sync): of two tasks of group G the first runs and the second
    is parked. *)
Example sync_second_is_parked :
  let σ := run transient false sync_run in
  running_in GroupG σ = 1%nat /\ submit_seq <$> pending (sync_of σ GroupG) = [1%nat].
Proof. vm_compute. done. Qed.

(** Scenario 2, continued: when the first task has completed, its release
    hands the group to the parked task, which a worker then resumes; when
    that one has completed too the group is free. *)
Example sync_successor_is_resumed :
  let σ := run transient false handover_run in
  submit_seq <$> (threads σ ≫= running_hand) = [1%nat]
  /\ group_running σ GroupG = true
  /\ pending (sync_of σ GroupG) = []
  /\ group_running (run transient false (handover_run ++ steps 2 3)) GroupG = false.
Proof. vm_compute. done. Qed.



Lemma sync_group_at_most_one_running_witness :
  let σ := run transient false sync_run in
  group_running σ GroupG = true
  /\ ((running_in GroupG σ <= 1)%nat
      /\ (group_running σ GroupG = false -> running_in GroupG σ = 0%nat)
      /\ (group_running σ GroupG = true ->
          (forall t, task_group t = Some GroupG ->
             admission t σ
             = (false,
                with_syncs (<[GroupG := {| running := true;
                                           pending := pending (sync_of σ GroupG) ++ [t];
                                           heir := heir (sync_of σ GroupG) |}]>
                              (syncs σ)) σ))
          /\ (forall lbl : Label unit,
                (running_in GroupG σ < running_in GroupG (step transient false σ lbl))%nat ->
                holders GroupG σ = 0%nat
                /\ exists i th t,
                     lbl = LThread i /\ threads σ !! i = Some th /\ pc th = Checked t
                     /\ task_group t = Some GroupG
                     /\ heir (sync_of σ GroupG) = Some (submit_seq t))
          /\ (forall lbl : Label unit,
                group_running (step transient false σ lbl) GroupG = false ->
                exists i th t,
                  lbl = LThread i /\ threads σ !! i = Some th
                  /\ pc th = Decremented t /\ task_group t = Some GroupG
                  /\ pending (sync_of σ GroupG) = []))).
Proof.
  split; [vm_compute; reflexivity|].
  apply (EngineFacts.sync_group_at_most_one_running transient false sync_run GroupG).
Defined.

Lemma bind_invokes_each_hook_once_in_order_witness :
  BindFusion.children_bind fused_words = true
  /\ BindFusion.total_arity fused_words = length [5%nat]
  /\ BindFusion.bind fused_words 0%nat "on" tt [5%nat] = Some (2%nat, [10; 5; 20]%nat)
  /\ BindFusion.bind (BindFusion.log_word <$> fused_words) (0%nat, []) "on" tt [5%nat]
     = Some ((2%nat, ["Trigger"; "Startup"]), [10; 5; 20]%nat).
Proof.
  split; [reflexivity|]. split; [reflexivity|].
  destruct (BindFusionFacts.bind_invokes_each_hook_once_in_order
              fused_words 0%nat "on" tt [5%nat] eq_refl eq_refl) as [H1 H2].
  split; [exact H1|exact (H2 [])].
Defined.

Lemma network_inputs_are_transient_witness :
  let W := NetworkDataT Ping in
  let c1 : gmap (nat * TypeKey) nat := <[(3%nat, W) := 42%nat]> ∅ in
  W ∈ [NetworkDataT Ping; SharedPtrT NetworkSourceT]
  /\ 4%nat <> 3%nat
  /\ gather_with transient 3 (put W (Some 42%nat) ∅).1 W ∅ = Some (Some 42%nat, c1)
  /\ gather_with transient 3 (put W None (put W (Some 42%nat) ∅).1).1 W c1
     = Some (Some 42%nat, c1)
  /\ c1 !! (4%nat, W) = (∅ : gmap (nat * TypeKey) nat) !! (4%nat, W).
Proof.
  intros W c1.
  assert (W ∈ [NetworkDataT Ping; SharedPtrT NetworkSourceT]) as HW by (by left).
  assert (4%nat <> 3%nat) as Hne by discriminate.
  split; [exact HW|]. split; [exact Hne|].
  destruct (TransientFacts.network_inputs_are_transient (fun _ => false) Ping)
    as (_ & _ & H).
  destruct (H nat W 3%nat 42%nat ∅ ∅ HW) as (H1 & H2 & H3).
  split; [exact H1|]. split; [exact H2|exact (H3 4%nat Hne)].
Defined.

End ScenarioFacts.

(** ** More on BindFusion: when it is rejected, what it depends on, where
    the arguments go *)

Module BindFusionMore.
Import BindFusion BindFusionFacts FusionTrace.

Section Shape.
Context {Reactor Callback Arg Handle : Type}.
Implicit Types (w : Word Reactor Callback Arg Handle)
               (words : list (Word Reactor Callback Arg Handle))
               (hooks : list (Hook Reactor Callback Arg Handle)).

Lemma total_arity_cons w words :
  total_arity (w :: words)
  = match selected_bind w with
    | Some h => (hook_arity h + total_arity words)%nat
    | None => total_arity words
    end.
Proof. unfold total_arity. rewrite hooks_of_cons. by destruct (selected_bind w). Qed.

Lemma children_bind_hooks words :
  children_bind words = true <-> hooks_of words <> [].
Proof.
  split.
  - induction words as [|w ws IH]; [done|].
    rewrite hooks_of_cons. intros H. simpl in H.
    destruct (has_any_bind w) eqn:Hw.
    + apply has_any_bind_selected in Hw as [h ->]. done.
    + apply no_bind_selected in Hw as ->. by apply IH.
  - destruct (children_bind words) eqn:H; [done|].
    by rewrite (children_bind_false_hooks _ H).
Qed.

(** A fusion that exists has a hook somewhere and arguments that fit. *)
Lemma bind_Some_fits words :
  forall (reactor : Reactor) (identifier : string) (callback : Callback)
         (args : list Arg) res,
    bind words reactor identifier callback args = Some res ->
    children_bind words = true /\ total_arity words = length args.
Proof.
  induction words as [|TFirst TWords IH]; intros reactor identifier callback args res;
    [done|].
  simpl. rewrite total_arity_cons.
  destruct (has_any_bind TFirst) eqn:Hfirst.
  - destruct (proj1 (has_any_bind_selected TFirst) Hfirst) as [h Hh]. rewrite Hh.
    destruct (children_bind TWords) eqn:Hrest; simpl.
    + unfold BindFission_bind. case_decide as Hle; [|done].
      destruct (hook_run h reactor identifier callback _) as [reactor1 init].
      destruct (bind TWords reactor1 identifier callback _) as [res'|] eqn:Hrec; [|done].
      intros _. destruct (IH _ _ _ _ _ Hrec) as [_ Har].
      rewrite length_drop in Har. split; [done|lia].
    + case_decide as Heq; [|done]. intros _.
      unfold total_arity. rewrite (children_bind_false_hooks _ Hrest). simpl.
      split; [done|lia].
  - rewrite (proj1 (no_bind_selected TFirst) Hfirst).
    destruct (children_bind TWords) eqn:Hrest; simpl.
    + destruct (selected_bind TFirst); apply IH.
    + by destruct (selected_bind TFirst).
Qed.

(** The fusion depends on the word list through its hooks only. *)
Lemma bind_ext words words' :
  hooks_of words = hooks_of words' ->
  forall (reactor : Reactor) (identifier : string) (callback : Callback)
         (args : list Arg),
    bind words reactor identifier callback args
    = bind words' reactor identifier callback args.
Proof.
  intros Hhooks reactor identifier callback args.
  assert (forall ws ws' : list (Word Reactor Callback Arg Handle),
            hooks_of ws = hooks_of ws' ->
            forall res, bind ws reactor identifier callback args = Some res ->
                        bind ws' reactor identifier callback args = Some res) as Hone.
  { intros ws ws' Heq res Hres.
    destruct (bind_Some_fits _ _ _ _ _ _ Hres) as [Hany Har].
    rewrite bind_is_run_hooks in Hres by done.
    rewrite bind_is_run_hooks.
    - by rewrite <- Heq.
    - apply children_bind_hooks. rewrite <- Heq. by apply children_bind_hooks.
    - unfold total_arity in *. by rewrite <- Heq. }
  destruct (bind words reactor identifier callback args) as [res|] eqn:H1.
  - symmetry. by eapply Hone.
  - destruct (bind words' reactor identifier callback args) as [res|] eqn:H2; [|done].
    rewrite (Hone words' words (eq_sym Hhooks) res H2) in H1. done.
Qed.

Lemma hooks_of_app words words' :
  hooks_of (words ++ words') = hooks_of words ++ hooks_of words'.
Proof. unfold hooks_of. apply omap_app. Qed.

Lemma hooks_of_filter words :
  hooks_of (filter (fun w => has_any_bind w = true) words) = hooks_of words.
Proof.
  induction words as [|w ws IH]; [done|].
  rewrite filter_cons. destruct (has_any_bind w) eqn:Hw.
  - rewrite decide_True by done. by rewrite !hooks_of_cons, IH.
  - rewrite decide_False by done. rewrite hooks_of_cons, IH.
    by rewrite (proj1 (no_bind_selected w) Hw).
Qed.

Lemma run_hooks_invariant (P : Reactor -> Prop) (Q : Handle -> Prop) hooks :
  Forall (fun h => forall r identifier callback args,
            P r -> P (hook_run h r identifier callback args).1
                   /\ Forall Q (hook_run h r identifier callback args).2) hooks ->
  forall (reactor : Reactor) (identifier : string) (callback : Callback)
         (args : list Arg),
    P reactor ->
    P (run_hooks_in_order hooks reactor identifier callback args).1
    /\ Forall Q (run_hooks_in_order hooks reactor identifier callback args).2.
Proof.
  induction 1 as [|h hooks Hh _ IH]; intros reactor identifier callback args HP.
  - simpl. by split.
  - simpl.
    destruct (Hh reactor identifier callback (take (hook_arity h) args) HP) as [HP1 HQ1].
    destruct (hook_run h reactor identifier callback _) as [r1 hs1]. simpl in *.
    destruct (IH r1 identifier callback (drop (hook_arity h) args) HP1) as [HP2 HQ2].
    destruct (run_hooks_in_order hooks r1 identifier callback _) as [r2 hs2]. simpl in *.
    split; [done|]. by apply Forall_app.
Qed.

(** X1: a [BindFusion::bind] that is accepted has a word with a bind hook
    (its own or its DSLProxy's) and is passed exactly as many run-time
    arguments as the hooks of its words take together: it is rejected for an
    empty word list, for words that are all without a hook, and for too few
    or too many arguments. *)
Theorem bind_accepted_fits :
  forall (words : list (Word Reactor Callback Arg Handle)) (reactor : Reactor)
         (identifier : string) (callback : Callback) (args : list Arg),
    is_Some (bind words reactor identifier callback args) ->
    children_bind words = true /\ total_arity words = length args.
Proof.
  intros words reactor identifier callback args [res Hres]. by eapply bind_Some_fits.
Qed.

(** X2: words without a bind hook are transparent: removing them all from
    the word list leaves the result of [BindFusion::bind] as it is, whether
    it is defined or rejected. *)
Theorem bind_skips_hookless_words :
  forall (words : list (Word Reactor Callback Arg Handle)) (reactor : Reactor)
         (identifier : string) (callback : Callback) (args : list Arg),
    bind (filter (fun w => has_any_bind w = true) words)
         reactor identifier callback args
    = bind words reactor identifier callback args.
Proof. intros. apply bind_ext, hooks_of_filter. Qed.

(** X3: a word's own bind hook shadows the one of its DSLProxy: whatever
    hook the DSLProxy of such a word has, or none, the result of
    [BindFusion::bind] is the same, so the proxy's hook is never run. *)
Theorem bind_own_hook_shadows_proxy :
  forall (before after : list (Word Reactor Callback Arg Handle))
         (name : string) (own : Hook Reactor Callback Arg Handle)
         (proxy proxy' : option (Hook Reactor Callback Arg Handle))
         (reactor : Reactor) (identifier : string) (callback : Callback)
         (args : list Arg),
    bind (before ++ {| word_name := name; own_bind := Some own; proxy_bind := proxy |}
                 :: after) reactor identifier callback args
    = bind (before ++ {| word_name := name; own_bind := Some own;
                         proxy_bind := proxy' |} :: after)
           reactor identifier callback args.
Proof.
  intros. apply bind_ext. by rewrite !hooks_of_app, !hooks_of_cons.
Qed.

(** X5: the fusion acts on the reactor through the hooks only and returns
    no handle of its own: a property of the reactor that every selected hook
    preserves holds after [BindFusion::bind] if it held before, and a
    property that holds of every handle the hooks return holds of every
    handle the fusion returns. *)
Theorem bind_preserves_invariants :
  forall (P : Reactor -> Prop) (Q : Handle -> Prop)
         (words : list (Word Reactor Callback Arg Handle)) (reactor : Reactor)
         (identifier : string) (callback : Callback) (args : list Arg)
         (reactor' : Reactor) (handles : list Handle),
    Forall (fun h => forall r identifier callback args,
              P r -> P (hook_run h r identifier callback args).1
                     /\ Forall Q (hook_run h r identifier callback args).2)
           (hooks_of words) ->
    P reactor ->
    bind words reactor identifier callback args = Some (reactor', handles) ->
    P reactor' /\ Forall Q handles.
Proof.
  intros P Q words reactor identifier callback args reactor' handles Hhooks HP Hbind.
  destruct (bind_Some_fits _ _ _ _ _ _ Hbind) as [Hany Har].
  rewrite bind_is_run_hooks in Hbind by done. injection Hbind as Hrun.
  pose proof (run_hooks_invariant P Q _ Hhooks reactor identifier callback args HP)
    as Hinv.
  rewrite Hrun in Hinv. exact Hinv.
Qed.

End Shape.

Section Routing.
Context {Reactor Callback Arg Handle : Type}.
Implicit Types (w : Word Reactor Callback Arg Handle)
               (words : list (Word Reactor Callback Arg Handle))
               (hooks : list (Hook Reactor Callback Arg Handle)).

Lemma selected_bind_trace_word w :
  selected_bind (trace_word w) = trace_hook <$> selected_bind w.
Proof. unfold selected_bind. simpl. by destruct (own_bind w), (proxy_bind w). Qed.

Lemma hooks_of_trace_word words :
  hooks_of (trace_word <$> words) = trace_hook <$> hooks_of words.
Proof.
  induction words as [|w ws IH]; [done|].
  rewrite fmap_cons, !hooks_of_cons, selected_bind_trace_word, IH.
  by destruct (selected_bind w).
Qed.

Lemma run_traced_hooks hooks :
  forall (reactor : Reactor) (record : list (string * Callback * list Arg))
         (identifier : string) (callback : Callback) (args : list Arg),
    run_hooks_in_order (trace_hook <$> hooks) (reactor, record)
                       identifier callback args
    = let '(r', hs) := run_hooks_in_order hooks reactor identifier callback args in
      ((r', record ++ hook_calls identifier callback hooks args), hs).
Proof.
  induction hooks as [|h hooks IH]; intros reactor record identifier callback args.
  - simpl. by rewrite app_nil_r.
  - rewrite fmap_cons. simpl.
    destruct (hook_run h reactor identifier callback (take (hook_arity h) args))
      as [r1 hs1].
    rewrite IH.
    destruct (run_hooks_in_order hooks r1 identifier callback _) as [r2 hs2].
    by rewrite <- app_assoc.
Qed.

Lemma hook_calls_shape (identifier : string) (callback : Callback) hooks :
  forall args : list Arg,
    Forall (fun c => c.1 = (identifier, callback))
           (hook_calls identifier callback hooks args)
    /\ concat (snd <$> hook_calls identifier callback hooks args)
       = take (sum_list (hook_arity <$> hooks)) args
    /\ (sum_list (hook_arity <$> hooks) <= length args ->
        (fun c => length c.2) <$> hook_calls identifier callback hooks args
        = hook_arity <$> hooks)%nat.
Proof.
  induction hooks as [|h hooks IH]; intros args.
  - simpl. split; [constructor|]. by split.
  - destruct (IH (drop (hook_arity h) args)) as (IH1 & IH2 & IH3).
    cbn [hook_calls]. rewrite !fmap_cons. cbn [concat sum_list sum_list_with snd].
    split; [by constructor|]. split.
    + rewrite IH2. apply take_take_drop.
    + intros Hle.
      change (hook_arity h + sum_list (hook_arity <$> hooks) <= length args)%nat in Hle.
      rewrite IH3 by (rewrite length_drop; lia).
      cbn [snd]. by rewrite length_take_le by lia.
Qed.

(** X6: the fission routes every run-time argument to exactly one hook, in
    order: on a reactor that records calls, a fusion that is accepted
    appends one call per hooked word, each with the identifier that
    [BindFusion::bind] was given and with as many arguments as its hook
    takes, and the arguments of these calls, concatenated, are the arguments
    of the fusion. *)
Theorem bind_routes_arguments :
  forall (words : list (Word Reactor Callback Arg Handle)) (reactor : Reactor)
         (record : list (string * Callback * list Arg))
         (identifier : string) (callback : Callback) (args : list Arg)
         (reactor' : Reactor) (record' : list (string * Callback * list Arg))
         (handles : list Handle),
    bind (trace_word <$> words) (reactor, record) identifier callback args
    = Some ((reactor', record'), handles) ->
    exists calls,
      record' = record ++ calls
      /\ Forall (fun c => c.1.1 = identifier) calls
      /\ (fun c => length c.2) <$> calls = hook_arity <$> hooks_of words
      /\ concat (snd <$> calls) = args
      /\ bind words reactor identifier callback args = Some (reactor', handles).
Proof.
  intros words reactor record identifier callback args reactor' record' handles Hbind.
  destruct (bind_Some_fits _ _ _ _ _ _ Hbind) as [Hany Har].
  assert (hooks_of words <> []) as Hne.
  { apply children_bind_hooks in Hany. rewrite hooks_of_trace_word in Hany.
    by destruct (hooks_of words). }
  assert (sum_list (hook_arity <$> hooks_of words) = length args) as Har'.
  { unfold total_arity in Har. rewrite hooks_of_trace_word in Har.
    rewrite <- Har, <- list_fmap_compose. done. }
  rewrite bind_is_run_hooks in Hbind by done.
  rewrite hooks_of_trace_word, run_traced_hooks in Hbind.
  destruct (run_hooks_in_order (hooks_of words) reactor identifier callback args)
    as [r' hs] eqn:Hrun.
  injection Hbind as -> <- ->.
  destruct (hook_calls_shape identifier callback (hooks_of words) args)
    as (H1 & H2 & H3).
  exists (hook_calls identifier callback (hooks_of words) args).
  split; [done|].
  split; [eapply Forall_impl; [exact H1|]; by intros c ->|].
  split; [apply H3; lia|].
  split; [rewrite H2, Har'; by apply take_ge|].
  rewrite bind_is_run_hooks; [by rewrite Hrun|by apply children_bind_hooks|done].
Qed.

End Routing.
End BindFusionMore.

(** ** More on the transient trait and on identifiers *)

Module TraitMore.

(** X7: with the two specialisations of Network.hpp in scope, a type is
    transient exactly when it is some [NetworkData<T>], or
    [std::shared_ptr<NetworkSource>], or transient by the primary template:
    the specialisations turn the trait on for these types and change it for
    no other type (not for [NetworkSource] itself, nor for a [shared_ptr] of
    anything else). *)
Theorem is_transient_exactly :
  forall (primary : CppType -> bool) (t : CppType),
    trait.is_transient primary t = true
    <-> (exists T, t = NetworkDataT T) \/ t = SharedPtrT NetworkSourceT
        \/ primary t = true.
Proof.
  intros primary t. split.
  - destruct t as [s|T| | |T|n p]; simpl; eauto.
    destruct T; simpl; eauto.
  - intros [[T ->]|[->|H]]; [done|done|].
    destruct t as [s|T| | |T|n p]; simpl; try done.
    by destruct T.
Qed.

End TraitMore.

Module GetIdentifierMore.
Import util.

(** X8: two identifiers are equal exactly when the labels are equal and the
    demangled names of the fusion types and of the callback types are equal:
    the label always tells identifiers apart, and types are told apart by
    their demangled names only. *)
Theorem get_identifier_equal_iff :
  forall (typeid_name : CppType -> string) (demangle : string -> string)
         (TFusion TFunc TFusion' TFunc' : CppType) (usr usr' : string),
    get_identifier typeid_name demangle TFusion TFunc usr
    = get_identifier typeid_name demangle TFusion' TFunc' usr'
    <-> usr = usr'
        /\ demangle (typeid_name TFusion) = demangle (typeid_name TFusion')
        /\ demangle (typeid_name TFunc) = demangle (typeid_name TFunc').
Proof.
  intros. unfold get_identifier, push_back. simpl. split.
  - intros [= -> -> ->]. done.
  - intros (-> & -> & ->). done.
Qed.

End GetIdentifierMore.

(** ** The further theorems at concrete scenarios *)

Module MoreScenarioFacts.
Import BindFusion FusionTrace MoreScenarios.

Lemma bind_accepted_fits_witness :
  is_Some (bind (front_words ++ back_words) 0%nat "on" tt [1; 2; 3]%nat)
  /\ (children_bind (front_words ++ back_words) = true
      /\ total_arity (front_words ++ back_words) = length [1; 2; 3]%nat).
Proof.
  assert (is_Some (bind (front_words ++ back_words) 0%nat "on" tt [1; 2; 3]%nat)) as H.
  { by eexists. }
  split; [exact H|].
  exact (BindFusionMore.bind_accepted_fits (front_words ++ back_words) 0%nat "on" tt
           [1; 2; 3]%nat H).
Defined.

Lemma bind_preserves_invariants_witness :
  let P := fun r : nat => (1 <= r)%nat in
  let Q := fun k : nat => (10 <= k)%nat in
  Forall (fun h => forall r identifier callback args,
            P r -> P (hook_run h r identifier callback args).1
                   /\ Forall Q (hook_run h r identifier callback args).2)
         (hooks_of (front_words ++ back_words))
  /\ P 1%nat
  /\ bind (front_words ++ back_words) 1%nat "on" tt [1; 2; 3]%nat
     = Some (3%nat, [10; 20]%nat)
  /\ (P 3%nat /\ Forall Q [10; 20]%nat).
Proof.
  intros P Q.
  assert (Forall (fun h => forall r identifier callback args,
                    P r -> P (hook_run h r identifier callback args).1
                           /\ Forall Q (hook_run h r identifier callback args).2)
                 (hooks_of (front_words ++ back_words))) as Hhooks.
  { repeat constructor; simpl; repeat constructor; assumption. }
  assert (P 1%nat) as HP by constructor.
  split; [exact Hhooks|]. split; [exact HP|]. split; [reflexivity|].
  exact (BindFusionMore.bind_preserves_invariants P Q (front_words ++ back_words)
           1%nat "on" tt [1; 2; 3]%nat 3%nat [10; 20]%nat Hhooks HP eq_refl).
Defined.

Lemma bind_routes_arguments_witness :
  bind (trace_word <$> (front_words ++ back_words)) (0%nat, []) "on" tt [1; 2; 3]%nat
  = Some ((2%nat, [("on", tt, [1; 2]%nat); ("on", tt, [3%nat])]), [10; 20]%nat)
  /\ exists calls : list (string * unit * list nat),
       [("on", tt, [1; 2]%nat); ("on", tt, [3%nat])] = [] ++ calls
       /\ Forall (fun c => c.1.1 = "on") calls
       /\ (fun c => length c.2) <$> calls
          = hook_arity <$> hooks_of (front_words ++ back_words)
       /\ concat (snd <$> calls) = [1; 2; 3]%nat
       /\ bind (front_words ++ back_words) 0%nat "on" tt [1; 2; 3]%nat
          = Some (2%nat, [10; 20]%nat).
Proof.
  split; [reflexivity|].
  exact (BindFusionMore.bind_routes_arguments (front_words ++ back_words) 0%nat []
           "on" tt [1; 2; 3]%nat 2%nat
           [("on", tt, [1; 2]%nat); ("on", tt, [3%nat])] [10; 20]%nat eq_refl).
Defined.

End MoreScenarioFacts.
